(** * The Mandelbrot regressors of [src/models.py]

    A shallow embedding of the five classes of [src/models.py]
    ([CenteredLinearMap], [SkipConn], [Fourier], [Fourier2D], [Taylor]) and of
    the torch operations their bodies call.

    Conventions of the embedding.
    - Numbers are the mathematical reals of the Standard Library: a float32
      entry of a torch tensor is read as the real it denotes, and rounding is
      not part of the model.  The one line whose range rounding decides, the
      last of [SkipConn.forward], is also given on IEEE binary32 numbers
      ([squash32]).
    - A tensor is its shape and its entries in row-major order, as torch lays
      out a contiguous tensor.
    - A Python exception is a [Raise]; a method that assigns to [self] returns
      the object it leaves behind next to its result.
    - Device placement is recorded on the buffers a module owns ([.cuda()]
      changes where a buffer lives, never its entries).  An accelerator is
      taken to be present whenever [use_cuda] asks for one, and the caller is
      taken to hand in its batch on the module's device.  Placement is not
      checked when tensors are combined, as torch does: that a call
      succeeds behind a linear map is stated only for a map and a model
      built with the same [use_cuda]. *)

From Stdlib Require Import Reals Lra List Arith Lia ZArith Bool.
From Stdlib Require Import Floats.SpecFloat.
Import ListNotations.

(** ** Exceptions *)

Inductive exn : Type :=
| RuntimeError
| IndexError
| ZeroDivisionError.

Inductive result (A : Type) : Type :=
| Ok (a : A)
| Raise (e : exn).

Arguments Ok {A} a.
Arguments Raise {A} e.

Definition bind {A B : Type} (r : result A) (k : A -> result B) : result B :=
  match r with
  | Ok a => k a
  | Raise e => Raise e
  end.

Notation "x <- e ;; k" := (bind e (fun x => k))
  (at level 61, e at next level, right associativity).

Definition is_ok {A : Type} (r : result A) : bool :=
  match r with
  | Ok _ => true
  | Raise _ => false
  end.

(** ** Tensors *)

Record tensor : Type := Tensor { shape : list nat; data : list R }.

Definition numel (s : list nat) : nat := fold_right Nat.mul 1 s.

(** Every tensor torch builds has as many entries as its shape says. *)
Definition wf (t : tensor) : Prop := length (data t) = numel (shape t).

(** [chunks n w l]: the first [n] consecutive blocks of [w] entries of [l]. *)
Fixpoint chunks (n w : nat) (l : list R) : list (list R) :=
  match n with
  | O => []
  | S n' => firstn w l :: chunks n' w (skipn w l)
  end.

Fixpoint zip_with (f : R -> R -> R) (l1 l2 : list R) : list R :=
  match l1, l2 with
  | a :: l1', b :: l2' => f a b :: zip_with f l1' l2'
  | _, _ => []
  end.

Fixpoint split_last (s : list nat) : option (list nat * nat) :=
  match s with
  | [] => None
  | d :: s' =>
      match split_last s' with
      | None => Some ([], d)
      | Some (p, l) => Some (d :: p, l)
      end
  end.

(** The rows of a rank-2 tensor. *)
Definition rows (t : tensor) : list (list R) :=
  chunks (nth 0 (shape t) 0) (nth 1 (shape t) 0) (data t).

(** [torch.tensor([])]: one dimension, of size zero. *)
Definition empty : tensor := Tensor [0] [].

(** An elementwise function ([torch.sin], an activation, [x**n], [s*x]). *)
Definition tmap (f : R -> R) (t : tensor) : tensor :=
  Tensor (shape t) (map f (data t)).

(** [t.unsqueeze(-1)] *)
Definition unsqueeze_last (t : tensor) : tensor :=
  Tensor (shape t ++ [1]) (data t).

(** [torch.arange(a, b).float()] *)
Definition arange (a b : nat) : list R := map INR (seq a (b - a)).

(** A [dim] argument counted from the end when negative. *)
Definition wrap_dim (dim : Z) (rank : nat) : result nat :=
  if ((- Z.of_nat rank <=? dim) && (dim <? Z.of_nat rank))%Z
  then Ok (Z.to_nat (dim mod Z.of_nat rank))
  else Raise IndexError.

(** torch.cat leaves out the one-dimensional tensors without entries, of
    shape [[0]], whatever the other shapes are. *)
Definition is_legacy_empty (t : tensor) : bool :=
  match shape t with
  | [0] => true
  | _ => false
  end.

Definition shape_eqb (s1 s2 : list nat) : bool :=
  if list_eq_dec Nat.eq_dec s1 s2 then true else false.

(** Two shapes that may be concatenated along [d]: equal everywhere else. *)
Definition cat_compatible (d : nat) (s0 s : list nat) : bool :=
  (length s0 =? length s)
  && shape_eqb (firstn d s0) (firstn d s)
  && shape_eqb (skipn (S d) s0) (skipn (S d) s).

Definition pieces (d outer : nat) (t : tensor) : list (list R) :=
  chunks outer (numel (skipn d (shape t))) (data t).

Definition cat_data (outer : nat) (ps : list (list (list R))) : list R :=
  concat (map (fun o => concat (map (fun p => nth o p []) ps)) (seq 0 outer)).

Definition sum_nat (l : list nat) : nat := fold_right Nat.add 0 l.

(** [torch.cat(ts, dim)] *)
Definition cat (ts : list tensor) (dim : Z) : result tensor :=
  match filter (fun t => negb (is_legacy_empty t)) ts with
  | [] =>
      match ts with
      | [] => Raise RuntimeError
      | _ :: _ => Ok empty
      end
  | t0 :: rest =>
      d <- match shape t0 with
           | [] => Raise RuntimeError
           | _ :: _ => wrap_dim dim (length (shape t0))
           end ;;
      if forallb (fun t => cat_compatible d (shape t0) (shape t)) rest
      then
        let outer := numel (firstn d (shape t0)) in
        Ok (Tensor
              (firstn d (shape t0)
               ++ [sum_nat (map (fun t => nth d (shape t) 0) (t0 :: rest))]
               ++ skipn (S d) (shape t0))
              (cat_data outer (map (pieces d outer) (t0 :: rest))))
      else Raise RuntimeError
  end.

(** [x op v] for a one-dimensional [v], broadcast along the last dimension
    of [x]: the two sizes must agree unless one of them is 1. *)
Definition broadcast (op : R -> R -> R) (x : tensor) (v : list R)
  : result tensor :=
  let L := length v in
  match split_last (shape x) with
  | None => Ok (Tensor [L] (map (op (nth 0 (data x) 0%R)) v))
  | Some (pre, D) =>
      if D =? L then
        Ok (Tensor (pre ++ [D])
              (concat (map (fun row => zip_with op row v)
                         (chunks (numel pre) D (data x)))))
      else if D =? 1 then
        Ok (Tensor (pre ++ [L])
              (concat (map (fun row => map (op (nth 0 row 0%R)) v)
                         (chunks (numel pre) 1 (data x)))))
      else if L =? 1 then
        Ok (Tensor (pre ++ [D]) (map (fun a => op a (nth 0 v 0%R)) (data x)))
      else Raise RuntimeError
  end.

(** [x[:, j]] *)
Definition select_col (x : tensor) (j : nat) : result tensor :=
  match shape x with
  | n0 :: n1 :: rest =>
      if j <? n1 then
        let inner := numel rest in
        Ok (Tensor (n0 :: rest)
              (concat (map (fun c => firstn inner (skipn (j * inner) c))
                         (chunks n0 (n1 * inner) (data x)))))
      else Raise IndexError
  | _ => Raise IndexError
  end.

(** [a * b] for two tensors of one shape (the only use in the source is on
    two columns of the same batch). *)
Definition tmul (a b : tensor) : result tensor :=
  if shape_eqb (shape a) (shape b)
  then Ok (Tensor (shape a) (zip_with Rmult (data a) (data b)))
  else Raise RuntimeError.

(** [t.view(n0, -1)]: the second size is inferred as [numel / n0].  When
    [n0] is 0 torch raises: a tensor with entries has no such shape, and for
    one without entries the size to infer "can be any value and is
    ambiguous". *)
Definition view_rows (t : tensor) (n0 : nat) : result tensor :=
  let n := numel (shape t) in
  if n0 =? 0 then Raise RuntimeError
  else if n mod n0 =? 0 then Ok (Tensor [n0; n / n0] (data t))
  else Raise RuntimeError.

(** ** Device placement of module buffers *)

Inductive device : Type := CPU | CUDA.

(** A one-dimensional tensor a module keeps, with the device it lives on. *)
Record buffer : Type := Buffer { value : list R; placement : device }.

Definition cuda (b : buffer) : buffer := Buffer (value b) CUDA.

(** ** nn.Linear *)

Module Linear.

Record t : Type := mk {
  in_features : nat;
  out_features : nat;
  weight : nat -> nat -> R;   (* weight j i, [out_features] x [in_features] *)
  bias : nat -> R
}.

Definition dot (n : nat) (w : nat -> R) (row : list R) : R :=
  fold_right Rplus 0%R (map (fun i => (nth i row 0 * w i)%R) (seq 0 n)).

(** [y = x W^T + b] on the last dimension of [x]. *)
Definition forward (self : t) (x : tensor) : result tensor :=
  match split_last (shape x) with
  | None => Raise RuntimeError
  | Some (pre, d) =>
      if d =? in_features self then
        Ok (Tensor (pre ++ [out_features self])
              (concat
                 (map (fun row =>
                         map (fun j =>
                                (dot (in_features self) (weight self j) row
                                 + bias self j)%R)
                           (seq 0 (out_features self)))
                    (chunks (numel pre) (in_features self) (data x)))))
      else Raise RuntimeError
  end.

End Linear.

(** The values the constructor of one [nn.Linear] draws for its weight and
    bias; the k-th layer a model builds takes the k-th draw. *)
Definition draws : Type := nat -> (nat -> nat -> R) * (nat -> R).

Definition nn_Linear (in_size out_size : nat)
  (th : (nat -> nat -> R) * (nat -> R)) : Linear.t :=
  Linear.mk in_size out_size (fst th) (snd th).

(** ** Activations *)

(** [nn.LeakyReLU()], negative slope 0.01. *)
Definition LeakyReLU (x : R) : R := (Rmax 0 x + 1 / 100 * Rmin 0 x)%R.

(** [nn.GELU()]: [x * Phi x], for [Phi] the standard normal distribution
    function, which the Standard Library does not define. *)
Definition GELU (Phi : R -> R) (x : R) : R := (x * Phi x)%R.

(** ** CenteredLinearMap *)

(** Python's [a / b] on floats. *)
Definition truediv (a b : R) : result R :=
  if Req_dec_T b 0 then Raise ZeroDivisionError else Ok (a / b)%R.

Module CenteredLinearMap.

Record t : Type := mk { m : buffer; b : buffer; use_cuda : bool }.

Definition init (xmin xmax ymin ymax : R) (x_size y_size : option R)
  (use_cuda : bool) : result t :=
  x_m <- match x_size with
         | Some size => truediv size (xmax - xmin)
         | None => Ok 1%R
         end ;;
  y_m <- match y_size with
         | Some size => truediv size (ymax - ymin)
         | None => Ok 1%R
         end ;;
  let x_b := ((- (xmin + xmax)) * x_m / 2)%R in
  let y_b := ((- (ymin + ymax)) * y_m / 2)%R in
  Ok (mk (Buffer [x_m; y_m] CPU) (Buffer [x_b; y_b] CPU) use_cuda).

(** The keyword defaults of the constructor. *)
Definition xmin_default : R := (- (25 / 10))%R.
Definition xmax_default : R := 1%R.
Definition ymin_default : R := (- (11 / 10))%R.
Definition ymax_default : R := (11 / 10)%R.

Definition map (self : t) (x : tensor) : t * result tensor :=
  let self' :=
    if use_cuda self
    then mk (cuda (m self)) (cuda (b self)) (use_cuda self)
    else self in
  (self',
   mx <- broadcast (fun a s => s * a)%R x (value (m self')) ;;
   broadcast (fun a o => a + o)%R mx (value (b self'))).

End CenteredLinearMap.

(** [if self._linmap: x = self._linmap.map(x)], shared by the four models. *)
Definition apply_linmap (linmap : option CenteredLinearMap.t) (x : tensor)
  : option CenteredLinearMap.t * result tensor :=
  match linmap with
  | Some lm =>
      let (lm', r) := CenteredLinearMap.map lm x in (Some lm', r)
  | None => (None, Ok x)
  end.

(** ** SkipConn *)

Module SkipConn.

Record t : Type := mk {
  inLayer : Linear.t;
  activation : R -> R;
  hidden : list Linear.t;
  outLayer : Linear.t;
  _linmap : option CenteredLinearMap.t;
  use_cuda : bool
}.

Definition init (hidden_size num_hidden_layers init_size : nat)
  (linmap : option CenteredLinearMap.t) (activation : R -> R)
  (use_cuda : bool) (theta : draws) : t :=
  let out_size := hidden_size in
  mk (nn_Linear init_size out_size (theta 0))
     activation
     (map (fun i =>
             let in_size :=
               if 0 <? i then out_size * 2 + init_size
               else out_size + init_size in
             nn_Linear in_size out_size (theta (S i)))
        (seq 0 num_hidden_layers))
     (nn_Linear (out_size * 2 + init_size) 1 (theta (S num_hidden_layers)))
     linmap
     use_cuda.

(** An entry of the ghost log: the operands [cur], [prev] of one
    concatenation and the tensor [combined] handed to the layer. *)
Record received : Type := Received {
  r_cur : tensor;
  r_prev : tensor;
  r_combined : tensor
}.

(** The loop over [self.hidden].  [seen] is the ghost log; it takes no
    part in the computation. *)
Fixpoint hidden_loop (act : R -> R) (layers : list Linear.t)
  (x cur prev : tensor) (seen : list received)
  : result (tensor * tensor * list received) :=
  match layers with
  | [] => Ok (cur, prev, seen)
  | layer :: rest =>
      combined <- cat [cur; prev; x] 1 ;;
      y <- Linear.forward layer combined ;;
      hidden_loop act rest x (tmap act y) cur
        (seen ++ [Received cur prev combined])
  end.

(** The body of [forward] after the linear map: the output, and the log of
    what the hidden layers and the output layer received. *)
Definition network (self : t) (x : tensor)
  : result (tensor * list received) :=
  y0 <- Linear.forward (inLayer self) x ;;
  let cur := tmap (activation self) y0 in
  let prev := empty in
  st <- hidden_loop (activation self) (hidden self) x cur prev [] ;;
  let '(cur, prev, seen) := st in
  combined <- cat [cur; prev; x] 1 ;;
  y <- Linear.forward (outLayer self) combined ;;
  Ok (tmap (fun v => (tanh v + 1) / 2)%R y,
      seen ++ [Received cur prev combined]).

Definition forward (self : t) (x : tensor) : t * result tensor :=
  let (lm, rx) := apply_linmap (_linmap self) x in
  (mk (inLayer self) (activation self) (hidden self) (outLayer self) lm
      (use_cuda self),
   x' <- rx ;; r <- network self x' ;; Ok (fst r)).

End SkipConn.

(** ** The last line of [SkipConn.forward] in float32 *)

(** IEEE binary32 numbers with the arithmetic torch uses on them, every
    operation rounding to the nearest number, ties to even. *)
Module F32.

Definition prec : Z := 24.
Definition emax : Z := 128.

Definition t : Type := spec_float.

Definition add : t -> t -> t := SFadd prec emax.




End F32.


(** ** Fourier *)

Module Fourier.

Record t : Type := mk {
  fourier_order : nat;
  inner_model : SkipConn.t;
  _linmap : option CenteredLinearMap.t;
  orders : buffer
}.

Definition init (fourier_order hidden_size num_hidden_layers : nat)
  (linmap : option CenteredLinearMap.t) (use_cuda : bool) (theta : draws)
  : t :=
  let orders := Buffer (arange 1 (fourier_order + 1)) CPU in
  mk fourier_order
     (SkipConn.init hidden_size num_hidden_layers (fourier_order * 4 + 2)
        None LeakyReLU use_cuda theta)
     linmap
     (if use_cuda then cuda orders else orders).

(** Lines 82-84 of the source: the expansion handed to the inner model. *)
Definition features (orders : list R) (x : tensor) : result tensor :=
  let x := unsqueeze_last x in
  s <- broadcast (fun a k => k * a)%R x orders ;;
  c <- broadcast (fun a k => k * a)%R x orders ;;
  fourier_features <- cat [tmap sin s; tmap cos c; x] (-1) ;;
  view_rows fourier_features (hd 0 (shape x)).

Definition forward (self : t) (x : tensor) : t * result tensor :=
  let (lm, rx) := apply_linmap (_linmap self) x in
  match x' <- rx ;; features (value (orders self)) x' with
  | Ok fourier_features =>
      let (inner, y) := SkipConn.forward (inner_model self) fourier_features in
      (mk (fourier_order self) inner lm (orders self), y)
  | Raise e =>
      (mk (fourier_order self) (inner_model self) lm (orders self), Raise e)
  end.

End Fourier.

(** ** Fourier2D *)

Module Fourier2D.

Record t : Type := mk {
  fourier_order : nat;
  inner_model : SkipConn.t;
  _linmap : option CenteredLinearMap.t;
  orders : buffer
}.

Definition init (fourier_order hidden_size num_hidden_layers : nat)
  (linmap : option CenteredLinearMap.t) (use_cuda : bool) (theta : draws)
  : t :=
  let orders := Buffer (arange 0 fourier_order) CPU in
  mk fourier_order
     (SkipConn.init hidden_size num_hidden_layers
        (fourier_order * fourier_order * 4 + 2)
        None LeakyReLU use_cuda theta)
     linmap
     (if use_cuda then cuda orders else orders).

(** [(f(n*x[:,0]) * g(m*x[:,1])).unsqueeze(-1)] *)
Definition term (f g : R -> R) (n m : R) (x : tensor) : result tensor :=
  x0 <- select_col x 0 ;;
  x1 <- select_col x 1 ;;
  p <- tmul (tmap f (tmap (Rmult n) x0)) (tmap g (tmap (Rmult m) x1)) ;;
  Ok (unsqueeze_last p).

Fixpoint loop_m (n : R) (ms : list R) (x : tensor) (features : list tensor)
  : result (list tensor) :=
  match ms with
  | [] => Ok features
  | m :: ms' =>
      f1 <- term cos cos n m x ;;
      f2 <- term cos sin n m x ;;
      f3 <- term sin cos n m x ;;
      f4 <- term sin sin n m x ;;
      loop_m n ms' x (features ++ [f1; f2; f3; f4])
  end.

Fixpoint loop_n (ns : list R) (orders : list R) (x : tensor)
  (features : list tensor) : result (list tensor) :=
  match ns with
  | [] => Ok features
  | n :: ns' =>
      features' <- loop_m n orders x features ;;
      loop_n ns' orders x features'
  end.

(** Lines 102-109 of the source. *)
Definition features (orders : list R) (x : tensor) : result tensor :=
  fs <- loop_n orders orders x [x] ;;
  cat fs 1.

Definition forward (self : t) (x : tensor) : t * result tensor :=
  let (lm, rx) := apply_linmap (_linmap self) x in
  match x' <- rx ;; features (value (orders self)) x' with
  | Ok fourier_features =>
      let (inner, y) := SkipConn.forward (inner_model self) fourier_features in
      (mk (fourier_order self) inner lm (orders self), y)
  | Raise e =>
      (mk (fourier_order self) (inner_model self) lm (orders self), Raise e)
  end.

End Fourier2D.

(** ** Taylor *)

Module Taylor.

Record t : Type := mk {
  taylor_order : nat;
  _linmap : option CenteredLinearMap.t;
  inner_model : SkipConn.t
}.

(** The inner model is built with the defaults of [SkipConn]: no linear
    map, [nn.GELU], [use_cuda=True]. *)
Definition init (Phi : R -> R) (taylor_order hidden_size num_hidden_layers : nat)
  (linmap : option CenteredLinearMap.t) (theta : draws) : t :=
  mk taylor_order linmap
     (SkipConn.init hidden_size num_hidden_layers (taylor_order * 2 + 2)
        None (GELU Phi) true theta).

(** [series = [x]], then [series.append(x**n)] for n = 1 .. taylor_order. *)
Definition series (taylor_order : nat) (x : tensor) : list tensor :=
  fold_left (fun series n => series ++ [tmap (fun v => v ^ n)%R x])
    (seq 1 taylor_order) [x].

(** Lines 148-151 of the source. *)
Definition features (taylor_order : nat) (x : tensor) : result tensor :=
  cat (series taylor_order x) 1.

Definition forward (self : t) (x : tensor) : t * result tensor :=
  let (lm, rx) := apply_linmap (_linmap self) x in
  match x' <- rx ;; features (taylor_order self) x' with
  | Ok taylor =>
      let (inner, y) := SkipConn.forward (inner_model self) taylor in
      (mk (taylor_order self) lm inner, y)
  | Raise e => (mk (taylor_order self) lm (inner_model self), Raise e)
  end.

End Taylor.

(** ** The four models behind one [forward] *)

Inductive model : Type :=
| ASkipConn (s : SkipConn.t)
| AFourier (f : Fourier.t)
| AFourier2D (f : Fourier2D.t)
| ATaylor (t : Taylor.t).

Definition forward (self : model) (x : tensor) : model * result tensor :=
  match self with
  | ASkipConn s => let (s', y) := SkipConn.forward s x in (ASkipConn s', y)
  | AFourier f => let (f', y) := Fourier.forward f x in (AFourier f', y)
  | AFourier2D f => let (f', y) := Fourier2D.forward f x in (AFourier2D f', y)
  | ATaylor t => let (t', y) := Taylor.forward t x in (ATaylor t', y)
  end.

(** * Vocabulary of the statements *)

(** The hidden layers the constructor builds after the first one. *)
Definition later_layers (h c : nat) (layers : list Linear.t) : Prop :=
  Forall (fun l => Linear.in_features l = h * 2 + c /\
                   Linear.out_features l = h) layers.

(** The log of a run of the loop over [self.hidden] on the batch [x] that
    enters with the operands [cur], [prev] and leaves with [cur'], [prev']:
    every layer is applied to the concatenation of the operands it finds,
    its activation is the next [cur], and the [cur] it found is the next
    [prev]. *)
Fixpoint loop_run (act : R -> R) (x : tensor) (layers : list Linear.t)
  (cur prev : tensor) (log : list SkipConn.received) (cur' prev' : tensor)
  : Prop :=
  match layers, log with
  | [], [] => cur' = cur /\ prev' = prev
  | layer :: rest, e :: log' =>
      SkipConn.r_cur e = cur /\ SkipConn.r_prev e = prev /\
      cat [cur; prev; x] 1 = Ok (SkipConn.r_combined e) /\
      exists y,
        Linear.forward layer (SkipConn.r_combined e) = Ok y /\
        loop_run act x rest (tmap act y) cur log' cur' prev'
  | _, _ => False
  end.

(** [(tanh(y)+1)/2], the last line of [SkipConn.forward]. *)
Definition squash (v : R) : R := ((tanh v + 1) / 2)%R.



(** The data model's formulas for the scale and the offset of one axis. *)
Definition scale_of (size : option R) (lo hi : R) : R :=
  match size with
  | Some s => (s / (hi - lo))%R
  | None => 1%R
  end.

Definition offset_of (size : option R) (lo hi : R) : R :=
  (- (lo + hi) * scale_of size lo hi / 2)%R.

(** What the Fourier expansion emits for one scalar [v]. *)
Definition harmonics (K : nat) (v : R) : list R :=
  map (fun k => sin (INR k * v)) (seq 1 K)
  ++ map (fun k => cos (INR k * v)) (seq 1 K)
  ++ [v].

(** A model with every placement forgotten: what is left is its numeric
    content (weights, biases, scale, offset, orders) and its structure. *)
Definition forget_buffer (b : buffer) : buffer := Buffer (value b) CPU.

Definition forget_linmap (lm : option CenteredLinearMap.t)
  : option CenteredLinearMap.t :=
  match lm with
  | Some l =>
      Some (CenteredLinearMap.mk (forget_buffer (CenteredLinearMap.m l))
              (forget_buffer (CenteredLinearMap.b l)) false)
  | None => None
  end.

Definition forget_skipconn (s : SkipConn.t) : SkipConn.t :=
  SkipConn.mk (SkipConn.inLayer s) (SkipConn.activation s) (SkipConn.hidden s)
    (SkipConn.outLayer s) (forget_linmap (SkipConn._linmap s)) false.

Definition forget (self : model) : model :=
  match self with
  | ASkipConn s => ASkipConn (forget_skipconn s)
  | AFourier f =>
      AFourier (Fourier.mk (Fourier.fourier_order f)
                  (forget_skipconn (Fourier.inner_model f))
                  (forget_linmap (Fourier._linmap f))
                  (forget_buffer (Fourier.orders f)))
  | AFourier2D f =>
      AFourier2D (Fourier2D.mk (Fourier2D.fourier_order f)
                    (forget_skipconn (Fourier2D.inner_model f))
                    (forget_linmap (Fourier2D._linmap f))
                    (forget_buffer (Fourier2D.orders f)))
  | ATaylor t =>
      ATaylor (Taylor.mk (Taylor.taylor_order t)
                 (forget_linmap (Taylor._linmap t))
                 (forget_skipconn (Taylor.inner_model t)))
  end.

(** The shape the three wrappers share: linear map, expansion, inner model. *)
Definition delegate (linmap : option CenteredLinearMap.t)
  (expand : tensor -> result tensor) (inner_model : SkipConn.t) (x : tensor)
  : option CenteredLinearMap.t * SkipConn.t * result tensor :=
  let (lm, rx) := apply_linmap linmap x in
  match x' <- rx ;; expand x' with
  | Ok expanded =>
      let (inner, y) := SkipConn.forward inner_model expanded in
      (lm, inner, y)
  | Raise e => (lm, inner_model, Raise e)
  end.

(** Draws that are all zero, and a batch, for the concrete instances. *)
Definition zero_draws : draws := fun _ => (fun _ _ => 0%R, fun _ => 0%R).

Definition origin : tensor := Tensor [1; 2] [0%R; 0%R].

(** [CenteredLinearMap(use_cuda=False)], every other argument defaulted. *)
Definition plain_linmap : CenteredLinearMap.t :=
  CenteredLinearMap.mk
    (Buffer [1%R; 1%R] CPU)
    (Buffer [((- (CenteredLinearMap.xmin_default
                  + CenteredLinearMap.xmax_default)) * 1 / 2)%R;
             ((- (CenteredLinearMap.ymin_default
                  + CenteredLinearMap.ymax_default)) * 1 / 2)%R] CPU)
    false.

(** [CenteredLinearMap()], every argument defaulted: [use_cuda=True]. *)
Definition cuda_linmap : CenteredLinearMap.t :=
  CenteredLinearMap.mk (CenteredLinearMap.m plain_linmap)
    (CenteredLinearMap.b plain_linmap) true.

(** [torch.zeros(0, 2)]: a batch of no points. *)
Definition empty_batch : tensor := Tensor [0; 2] [].

(** [torch.zeros(1, 1)]: one point with a single coordinate. *)
Definition column_batch : tensor := Tensor [1; 1] [0%R].

(** ** Vocabulary of the further properties *)

(** One point through the network: what [nn.Linear], the loop over
    [self.hidden] and [forward] compute on a single row of the batch. *)
Definition linear_row (l : Linear.t) (r : list R) : list R :=
  map (fun j =>
         (Linear.dot (Linear.in_features l) (Linear.weight l j) r
          + Linear.bias l j)%R)
    (seq 0 (Linear.out_features l)).

Fixpoint hidden_rows (act : R -> R) (layers : list Linear.t)
  (x cur prev : list R) : list R * list R :=
  match layers with
  | [] => (cur, prev)
  | layer :: rest =>
      hidden_rows act rest x (map act (linear_row layer (cur ++ prev ++ x)))
        cur
  end.

Definition point_forward (self : SkipConn.t) (x : list R) : list R :=
  let cur := map (SkipConn.activation self)
               (linear_row (SkipConn.inLayer self) x) in
  let (cur', prev') :=
    hidden_rows (SkipConn.activation self) (SkipConn.hidden self) x cur [] in
  map (fun v => (tanh v + 1) / 2)%R
    (linear_row (SkipConn.outLayer self) (cur' ++ prev' ++ x)).

(** A rank-2 tensor of [N] rows given row by row: row number [i] is [f]
    of the [i]-th element of [l]. *)
Definition presented {A : Type} (t : tensor) (N w : nat)
  (f : A -> list R) (l : list A) : Prop :=
  shape t = [N; w] /\
  data t = concat (map f l) /\
  Forall (fun a => length (f a) = w) l.

(** The operand [prev] of a concatenation: still [torch.tensor([])], which
    adds nothing to a row, or a tensor given row by row. *)
Definition prev_presented {A : Type} (prev : tensor) (N : nat)
  (f : A -> list R) (l : list A) : Prop :=
  (prev = empty /\ forall a, f a = []) \/
  (exists w, presented prev N w f l).

(** The four products of [Fourier2D] for one pair of orders and one row, and
    all of them for a list of orders, in the order of the two loops. *)
Definition cross_pair (n m : R) (r : list R) : list R :=
  [(cos (n * nth 0 r 0) * cos (m * nth 1 r 0))%R;
   (cos (n * nth 0 r 0) * sin (m * nth 1 r 0))%R;
   (sin (n * nth 0 r 0) * cos (m * nth 1 r 0))%R;
   (sin (n * nth 0 r 0) * sin (m * nth 1 r 0))%R].

Definition cross_terms (orders : list R) (r : list R) : list R :=
  flat_map (fun n => flat_map (fun m => cross_pair n m r) orders) orders.

(** Every layer of a SkipConn, input layer first, output layer last. *)
Definition layers_of (s : SkipConn.t) : list Linear.t :=
  SkipConn.inLayer s :: SkipConn.hidden s ++ [SkipConn.outLayer s].

(** ** One point through a whole model *)

(** [m*x + b] on one row of two coordinates. *)
Definition affine_row (lm : CenteredLinearMap.t) (r : list R) : list R :=
  zip_with (fun a o => a + o)%R
    (zip_with (fun a s => s * a)%R r (value (CenteredLinearMap.m lm)))
    (value (CenteredLinearMap.b lm)).

Definition linmap_row (lm : option CenteredLinearMap.t) (r : list R)
  : list R :=
  match lm with
  | Some l => affine_row l r
  | None => r
  end.

(** The expansions on one row. *)
Definition harmonics_of (v : list R) (a : R) : list R :=
  map (fun k => sin (k * a)) v ++ map (fun k => cos (k * a)) v ++ [a].

Definition fourier_row (v : list R) (r : list R) : list R :=
  concat (map (harmonics_of v) r).

Definition fourier2d_row (v : list R) (r : list R) : list R :=
  r ++ cross_terms v r.

Definition taylor_row (t : nat) (r : list R) : list R :=
  r ++ concat (map (fun n => map (fun v => v ^ n)%R r) (seq 1 t)).

Definition model_point (self : model) (r : list R) : list R :=
  match self with
  | ASkipConn s => point_forward s (linmap_row (SkipConn._linmap s) r)
  | AFourier f =>
      point_forward (Fourier.inner_model f)
        (fourier_row (value (Fourier.orders f))
           (linmap_row (Fourier._linmap f) r))
  | AFourier2D f =>
      point_forward (Fourier2D.inner_model f)
        (fourier2d_row (value (Fourier2D.orders f))
           (linmap_row (Fourier2D._linmap f) r))
  | ATaylor t =>
      point_forward (Taylor.inner_model t)
        (taylor_row (Taylor.taylor_order t)
           (linmap_row (Taylor._linmap t) r))
  end.

(** A linear map made by its constructor, or none; and a model made by its
    constructor around such a map. *)
Definition linmap_built (lm : option CenteredLinearMap.t) : Prop :=
  match lm with
  | None => True
  | Some l =>
      exists xmin xmax ymin ymax x_size y_size use_cuda,
        CenteredLinearMap.init xmin xmax ymin ymax x_size y_size use_cuda
        = Ok l
  end.

Inductive built : model -> Prop :=
| built_SkipConn (h L c : nat) (lm : option CenteredLinearMap.t)
    (act : R -> R) (uc : bool) (theta : draws) :
    linmap_built lm ->
    built (ASkipConn (SkipConn.init h L c lm act uc theta))
| built_Fourier (K h L : nat) (lm : option CenteredLinearMap.t)
    (uc : bool) (theta : draws) :
    linmap_built lm ->
    built (AFourier (Fourier.init K h L lm uc theta))
| built_Fourier2D (K h L : nat) (lm : option CenteredLinearMap.t)
    (uc : bool) (theta : draws) :
    linmap_built lm ->
    built (AFourier2D (Fourier2D.init K h L lm uc theta))
| built_Taylor (Phi : R -> R) (t h L : nat)
    (lm : option CenteredLinearMap.t) (theta : draws) :
    linmap_built lm ->
    built (ATaylor (Taylor.init Phi t h L lm theta)).

(** * Properties *)

(** ** Lists and shapes *)

Lemma split_last_app (p : list nat) (d : nat) :
  split_last (p ++ [d]) = Some (p, d).
Proof.
  induction p as [|a p IH]; simpl; [reflexivity|].
  now rewrite IH.
Qed.

Lemma chunks_length (n w : nat) (l : list R) : length (chunks n w l) = n.
Proof.
  revert l; induction n as [|n IH]; intros l; simpl; [reflexivity|].
  now rewrite IH.
Qed.

Lemma chunks_concat (w : nat) (rs : list (list R)) :
  Forall (fun r => length r = w) rs ->
  chunks (length rs) w (concat rs) = rs.
Proof.
  induction 1 as [|r rs Hr _ IH]; simpl; [reflexivity|].
  rewrite firstn_app, skipn_app, Hr, Nat.sub_diag.
  rewrite (firstn_all2 r), (skipn_all2 r) by lia.
  simpl. now rewrite app_nil_r, IH.
Qed.

Lemma concat_chunks (n w : nat) (l : list R) :
  length l = n * w -> concat (chunks n w l) = l.
Proof.
  revert l; induction n as [|n IH]; intros l Hl; simpl in *.
  - now destruct l.
  - rewrite IH; [apply firstn_skipn|].
    rewrite length_skipn. lia.
Qed.

Lemma shape_eqb_refl (s : list nat) : shape_eqb s s = true.
Proof. unfold shape_eqb. now destruct (list_eq_dec Nat.eq_dec s s). Qed.


(** ** torch.cat on the columns of rank-2 tensors *)

Lemma cat_skip_empty (a : tensor) (rest : list tensor) (dim : Z) :
  is_legacy_empty a = false ->
  cat (a :: empty :: rest) dim = cat (a :: rest) dim.
Proof.
  intros Ha. unfold cat. simpl. now rewrite Ha.
Qed.

Lemma filter_rank2 (N : nat) (ts : list tensor) (ws : list nat) :
  map shape ts = map (fun w => [N; w]) ws ->
  filter (fun t => negb (is_legacy_empty t)) ts = ts.
Proof.
  revert ws; induction ts as [|t ts IH]; intros [|w ws] H; simpl in *;
    try discriminate; [reflexivity|].
  injection H as Ht Hts.
  unfold is_legacy_empty at 1. rewrite Ht.
  destruct N; simpl; now rewrite (IH ws).
Qed.

Lemma compatible_rank2 (N w0 : nat) (ts : list tensor) (ws : list nat) :
  map shape ts = map (fun w => [N; w]) ws ->
  forallb (fun t => cat_compatible 1 [N; w0] (shape t)) ts = true.
Proof.
  revert ws; induction ts as [|t ts IH]; intros [|w ws] H; simpl in *;
    try discriminate; [reflexivity|].
  injection H as Ht Hts.
  rewrite Ht, (IH ws Hts). unfold cat_compatible. simpl.
  now rewrite !shape_eqb_refl.
Qed.

Lemma widths_rank2 (N : nat) (ts : list tensor) (ws : list nat) :
  map shape ts = map (fun w => [N; w]) ws ->
  map (fun t => nth 1 (shape t) 0) ts = ws.
Proof.
  revert ws; induction ts as [|t ts IH]; intros [|w ws] H; simpl in *;
    try discriminate; [reflexivity|].
  injection H as Ht Hts. now rewrite Ht, (IH ws Hts).
Qed.

(** Concatenating rank-2 tensors of [N] rows along dimension 1. *)
Lemma cat_cols (N : nat) (ts : list tensor) (ws : list nat) :
  ts <> [] ->
  map shape ts = map (fun w => [N; w]) ws ->
  cat ts 1 =
  Ok (Tensor [N; sum_nat ws] (cat_data (N * 1) (map (pieces 1 (N * 1)) ts))).
Proof.
  intros Hne H. unfold cat. rewrite (filter_rank2 _ _ _ H).
  destruct ts as [|t0 rest]; [congruence|].
  destruct ws as [|w0 ws]; [discriminate|].
  simpl in H. injection H as H0 Hrest.
  rewrite H0. cbn [length bind wrap_dim].
  change (wrap_dim 1 2) with (@Ok nat 1). cbn [bind].
  rewrite (compatible_rank2 _ _ _ _ Hrest).
  cbn [firstn skipn numel fold_right app map nth].
  rewrite H0, (widths_rank2 _ _ _ Hrest). reflexivity.
Qed.

Lemma rank2_not_legacy_empty (t : tensor) (N w : nat) :
  shape t = [N; w] -> is_legacy_empty t = false.
Proof.
  intros H. unfold is_legacy_empty. rewrite H. now destruct N.
Qed.

(** The first concatenation of [forward]: [prev] is still [torch.tensor([])]
    and torch.cat leaves it out. *)
Lemma cat3_first (cur x : tensor) (N a c : nat) :
  shape cur = [N; a] -> shape x = [N; c] ->
  exists t, cat [cur; empty; x] 1 = Ok t /\ shape t = [N; a + c].
Proof.
  intros Hc Hx.
  rewrite (cat_skip_empty _ _ _ (rank2_not_legacy_empty _ _ _ Hc)).
  rewrite (cat_cols N [cur; x] [a; c]); [|discriminate|simpl; congruence].
  eexists; split; [reflexivity|]. simpl. f_equal. f_equal. lia.
Qed.

Lemma cat3 (cur prev x : tensor) (N a b c : nat) :
  shape cur = [N; a] -> shape prev = [N; b] -> shape x = [N; c] ->
  exists t, cat [cur; prev; x] 1 = Ok t /\ shape t = [N; a + b + c].
Proof.
  intros Hc Hp Hx.
  rewrite (cat_cols N [cur; prev; x] [a; b; c]);
    [|discriminate|simpl; congruence].
  eexists; split; [reflexivity|]. simpl. f_equal. f_equal. lia.
Qed.

(** ** nn.Linear: the only check is on the last dimension *)

Lemma linear_ok (l : Linear.t) (x : tensor) (pre : list nat) :
  shape x = pre ++ [Linear.in_features l] ->
  exists y, Linear.forward l x = Ok y /\
            shape y = pre ++ [Linear.out_features l].
Proof.
  intros H. unfold Linear.forward.
  rewrite H, split_last_app, Nat.eqb_refl.
  eexists; split; reflexivity.
Qed.

Lemma linear_mismatch (l : Linear.t) (x : tensor) (pre : list nat) (d : nat) :
  shape x = pre ++ [d] -> d <> Linear.in_features l ->
  Linear.forward l x = Raise RuntimeError.
Proof.
  intros H Hd. unfold Linear.forward.
  rewrite H, split_last_app.
  now destruct (Nat.eqb_spec d (Linear.in_features l)).
Qed.

(** ** SkipConn: the shapes that flow through [forward] *)

Lemma init_hidden_later (h c : nat) (theta : draws) (start len : nat) :
  1 <= start ->
  later_layers h c
    (map (fun i =>
            let in_size := if 0 <? i then h * 2 + c else h + c in
            nn_Linear in_size h (theta (S i)))
       (seq start len)).
Proof.
  revert start; induction len as [|len IH]; intros start Hs; simpl.
  - constructor.
  - constructor; [|apply IH; lia].
    destruct (Nat.ltb_spec 0 start); [now simpl|lia].
Qed.

Lemma hidden_loop_later (act : R -> R) (N h c : nat) (x : tensor)
  (layers : list Linear.t) :
  shape x = [N; c] ->
  later_layers h c layers ->
  forall cur prev seen,
    shape cur = [N; h] -> shape prev = [N; h] ->
    exists cur' prev' seen',
      SkipConn.hidden_loop act layers x cur prev seen
      = Ok (cur', prev', seen ++ seen') /\
      shape cur' = [N; h] /\ shape prev' = [N; h] /\
      map (fun e => shape (SkipConn.r_combined e)) seen'
      = repeat [N; h * 2 + c] (length layers) /\
      map (fun e => shape (SkipConn.r_prev e)) seen'
      = repeat [N; h] (length layers) /\
      map (fun e => shape (SkipConn.r_cur e)) seen'
      = repeat [N; h] (length layers) /\
      Forall (fun e => cat [SkipConn.r_cur e; SkipConn.r_prev e; x] 1
                       = Ok (SkipConn.r_combined e)) seen'.
Proof.
  intros Hx Hl. induction Hl as [|l layers [Hin Hout] _ IH];
    intros cur prev seen Hc Hp.
  - exists cur, prev, []. simpl. rewrite app_nil_r. repeat split; auto.
  - destruct (cat3 cur prev x N h h c Hc Hp Hx) as (comb & Ecat & Hcomb).
    destruct (linear_ok l comb [N]) as (y & Ey & Hy).
    { rewrite Hcomb, Hin. simpl. f_equal. f_equal. lia. }
    destruct (IH (tmap act y) cur (seen ++ [SkipConn.Received cur prev comb]))
      as (cur' & prev' & seen' & E & Hc' & Hp' & Hs1 & Hs2 & Hs3 & Hs4).
    { simpl. now rewrite Hy, Hout. }
    { exact Hc. }
    exists cur', prev', (SkipConn.Received cur prev comb :: seen').
    cbn [SkipConn.hidden_loop]. rewrite Ecat. cbn [bind]. rewrite Ey.
    cbn [bind]. rewrite E, <- app_assoc. simpl.
    rewrite Hs1, Hs2, Hs3, Hcomb, Hc, Hp.
    repeat split; auto.
    f_equal. f_equal. f_equal. lia.
Qed.

(** With at least one hidden layer, [forward] goes through on every batch of
    the configured width, and the log has the shapes the constructor sized
    the layers for. *)
Lemma network_ok (h L c : nat) (lm : option CenteredLinearMap.t)
  (act : R -> R) (uc : bool) (theta : draws) (x : tensor) (N : nat) :
  1 <= L -> shape x = [N; c] ->
  exists y seen,
    SkipConn.network (SkipConn.init h L c lm act uc theta) x = Ok (y, seen) /\
    shape y = [N; 1] /\
    map (fun e => shape (SkipConn.r_combined e)) seen
    = [N; h + c] :: repeat [N; h * 2 + c] L /\
    map (fun e => shape (SkipConn.r_prev e)) seen
    = [0] :: repeat [N; h] L /\
    map (fun e => shape (SkipConn.r_cur e)) seen = repeat [N; h] (S L) /\
    Forall (fun e => cat [SkipConn.r_cur e; SkipConn.r_prev e; x] 1
                     = Ok (SkipConn.r_combined e)) seen.
Proof.
  intros HL Hx. destruct L as [|L]; [lia|].
  unfold SkipConn.network, SkipConn.init.
  cbn [SkipConn.inLayer SkipConn.hidden SkipConn.outLayer SkipConn.activation].
  destruct (linear_ok (nn_Linear c h (theta 0)) x [N] Hx) as (y0 & E0 & H0).
  rewrite E0. cbn [bind]. simpl in H0.
  set (cur0 := tmap act y0).
  assert (Hc0 : shape cur0 = [N; h]) by exact H0.
  clearbody cur0.
  cbn [seq map SkipConn.hidden_loop].
  change (0 <? 0) with false. cbv iota zeta.
  destruct (cat3_first cur0 x N h c Hc0 Hx) as (comb0 & Ec0 & Hcomb0).
  rewrite Ec0. cbn [bind].
  destruct (linear_ok (nn_Linear (h + c) h (theta 1)) comb0 [N] Hcomb0)
    as (y1 & E1 & H1).
  rewrite E1. cbn [bind]. simpl in H1.
  destruct (hidden_loop_later act N h c x _ Hx
              (init_hidden_later h c theta 1 L (le_n 1))
              (tmap act y1) cur0 ([] ++ [SkipConn.Received cur0 empty comb0])
              H1 Hc0)
    as (cur' & prev' & seen' & E & Hc' & Hp' & Hs1 & Hs2 & Hs3 & Hs4).
  cbv zeta in E. rewrite E. cbn [bind].
  destruct (cat3 cur' prev' x N h h c Hc' Hp' Hx) as (comb & Ecat & Hcomb).
  rewrite Ecat. cbn [bind].
  destruct (linear_ok (nn_Linear (h * 2 + c) 1 (theta (S (S L)))) comb [N])
    as (y & Ey & Hy).
  { rewrite Hcomb. simpl. f_equal. f_equal. lia. }
  rewrite Ey. cbn [bind].
  eexists _, _; split; [reflexivity|].
  rewrite length_map, length_seq in Hs1, Hs2, Hs3.
  simpl. rewrite !map_app, Hs1, Hs2, Hs3. simpl.
  rewrite Hcomb0, Hc0, Hcomb, Hc', Hp', Hy.
  repeat split.
  - replace (h + h + c) with (h * 2 + c) by lia.
    now rewrite <- repeat_cons.
  - now rewrite <- repeat_cons.
  - now rewrite <- repeat_cons.
  - constructor; [exact Ec0|].
    apply Forall_app; split; [exact Hs4|]. constructor; [exact Ecat|constructor].
Qed.

(** Without hidden layers the output layer, sized for [cur], [prev] and [x],
    is handed only [cur] and [x]. *)
Lemma network_no_hidden (h c : nat) (lm : option CenteredLinearMap.t)
  (act : R -> R) (uc : bool) (theta : draws) (x : tensor) (N : nat) :
  1 <= h -> shape x = [N; c] ->
  SkipConn.network (SkipConn.init h 0 c lm act uc theta) x
  = Raise RuntimeError.
Proof.
  intros Hh Hx.
  unfold SkipConn.network, SkipConn.init.
  cbn [SkipConn.inLayer SkipConn.hidden SkipConn.outLayer SkipConn.activation].
  destruct (linear_ok (nn_Linear c h (theta 0)) x [N] Hx) as (y0 & E0 & H0).
  rewrite E0. cbn [bind seq map SkipConn.hidden_loop]. simpl in H0.
  destruct (cat3_first (tmap act y0) x N h c H0 Hx) as (comb & Ec & Hcomb).
  rewrite Ec. cbn [bind].
  rewrite (linear_mismatch _ comb [N] (h + c) Hcomb); [reflexivity|].
  simpl. lia.
Qed.

(** ** Row-major data: blocks, maps and concatenation *)

Lemma chunks_map (f : R -> R) (n w : nat) (l : list R) :
  chunks n w (map f l) = map (map f) (chunks n w l).
Proof.
  revert l; induction n as [|n IH]; intros l; simpl; [reflexivity|].
  now rewrite firstn_map, skipn_map, IH.
Qed.

Lemma chunks_singletons (l : list R) :
  chunks (length l) 1 l = map (fun a => [a]) l.
Proof.
  induction l as [|a l IH]; simpl; [reflexivity|].
  now rewrite IH.
Qed.

Lemma chunks_all_length (n w : nat) (l : list R) :
  length l = n * w -> Forall (fun r => length r = w) (chunks n w l).
Proof.
  revert l; induction n as [|n IH]; intros l Hl; simpl in *;
    constructor.
  - rewrite length_firstn. lia.
  - apply IH. rewrite length_skipn. lia.
Qed.

Lemma zip_with_map {A : Type} (op : R -> R -> R) (f g : A -> R)
  (l : list A) :
  zip_with op (map f l) (map g l) = map (fun a => op (f a) (g a)) l.
Proof.
  induction l as [|a l IH]; simpl; [reflexivity|].
  now rewrite IH.
Qed.

Lemma concat_singletons {A : Type} (f : A -> R) (l : list A) :
  concat (map (fun a => [f a]) l) = map f l.
Proof.
  induction l as [|a l IH]; simpl; [reflexivity|].
  now rewrite IH.
Qed.

Lemma cat_data_step (n : nat) (ps : list (list (list R))) :
  cat_data (S n) ps
  = concat (map (fun p => nth 0 p []) ps) ++ cat_data n (map (@tl _) ps).
Proof.
  unfold cat_data. simpl. f_equal.
  rewrite <- seq_shift, map_map. f_equal.
  apply map_ext; intros o. f_equal.
  rewrite map_map. apply map_ext; intros p.
  destruct p; [destruct o|]; reflexivity.
Qed.

(** Tensors whose blocks are all computed from one list of indices: the
    concatenation lists, index by index, the blocks side by side. *)
Lemma cat_data_map {A : Type} (l : list A) (fs : list (A -> list R)) :
  cat_data (length l) (map (fun f => map f l) fs)
  = concat (map (fun a => concat (map (fun f => f a) fs)) l).
Proof.
  induction l as [|a l IH].
  - reflexivity.
  - cbn [length]. rewrite cat_data_step, !map_map. cbn [map concat tl nth].
    now rewrite IH.
Qed.

(** ** The output squashing *)



(** ** SkipConn without hidden layers *)

(** C1 (not met by the code).  With [num_hidden_layers = 0] and a hidden
    width of at least 1, [forward] raises on every batch of the configured
    width, whatever the batch size: [prev] is still [torch.tensor([])] at the
    output stage, so the output layer, built for [2*hidden_size+init_size]
    columns, is handed [hidden_size+init_size]. *)
Theorem skipconn_without_hidden_layers_faults (h c N : nat)
  (act : R -> R) (uc : bool) (theta : draws) (x : tensor) :
  1 <= h -> shape x = [N; c] ->
  snd (SkipConn.forward (SkipConn.init h 0 c None act uc theta) x)
  = Raise RuntimeError.
Proof.
  intros Hh Hx. unfold SkipConn.forward. cbn [SkipConn.init SkipConn._linmap].
  cbn [apply_linmap snd bind].
  change (SkipConn.mk _ _ _ _ None uc) with (SkipConn.init h 0 c None act uc theta).
  now rewrite (network_no_hidden h c None act uc theta x N Hh Hx).
Qed.

Lemma skipconn_without_hidden_layers_faults_witness :
  1 <= 1 /\ shape origin = [1; 2] /\
  snd (SkipConn.forward (SkipConn.init 1 0 2 None LeakyReLU false zero_draws)
         origin)
  = Raise RuntimeError.
Proof.
  split; [lia|]. split; [reflexivity|].
  apply (skipconn_without_hidden_layers_faults 1 2 1); [lia|reflexivity].
Defined.

(** ** SkipConn with hidden layers *)

Lemma later_widths (h c : nat) (theta : draws) (start len : nat) :
  1 <= start ->
  map Linear.in_features
    (map (fun i =>
            let in_size := if 0 <? i then h * 2 + c else h + c in
            nn_Linear in_size h (theta (S i)))
       (seq start len))
  = repeat (2 * h + c) len.
Proof.
  revert start; induction len as [|len IH]; intros start Hs;
    [reflexivity|].
  change (seq start (S len)) with (start :: seq (S start) len).
  rewrite !map_cons, (IH (S start)) by lia.
  destruct (Nat.ltb_spec 0 start); [|lia].
  cbn [repeat]. f_equal. simpl. lia.
Qed.

Lemma hidden_loop_run (act : R -> R) (x : tensor) (layers : list Linear.t) :
  forall (cur prev : tensor) (seen : list SkipConn.received)
         (cur' prev' : tensor) (seen' : list SkipConn.received),
    SkipConn.hidden_loop act layers x cur prev seen = Ok (cur', prev', seen') ->
    exists log,
      seen' = seen ++ log /\ loop_run act x layers cur prev log cur' prev'.
Proof.
  induction layers as [|layer rest IH]; intros cur prev seen cur' prev' seen' H.
  - cbn [SkipConn.hidden_loop] in H. injection H as <- <- <-.
    exists []. rewrite app_nil_r. now repeat split.
  - cbn [SkipConn.hidden_loop] in H.
    destruct (cat [cur; prev; x] 1) as [combined|] eqn:Ec; cbn [bind] in H;
      [|discriminate].
    destruct (Linear.forward layer combined) as [y|] eqn:Ey; cbn [bind] in H;
      [|discriminate].
    destruct (IH _ _ _ _ _ _ H) as (log & -> & Hrun).
    exists (SkipConn.Received cur prev combined :: log).
    rewrite <- app_assoc. split; [reflexivity|].
    cbn [loop_run SkipConn.r_cur SkipConn.r_prev SkipConn.r_combined].
    repeat split; try assumption. now exists y.
Qed.

(** What [forward] computes after the linear map, read off the log: the
    input layer and the activation give the first [cur], [prev] starts as
    [torch.tensor([])], the loop runs over [self.hidden], and the output
    layer is applied to the concatenation of what the loop leaves. *)
Lemma network_run (self : SkipConn.t) (x y : tensor)
  (seen : list SkipConn.received) :
  SkipConn.network self x = Ok (y, seen) ->
  exists y0 log cur prev combined logits,
    Linear.forward (SkipConn.inLayer self) x = Ok y0 /\
    loop_run (SkipConn.activation self) x (SkipConn.hidden self)
      (tmap (SkipConn.activation self) y0) empty log cur prev /\
    cat [cur; prev; x] 1 = Ok combined /\
    seen = log ++ [SkipConn.Received cur prev combined] /\
    Linear.forward (SkipConn.outLayer self) combined = Ok logits /\
    y = tmap squash logits.
Proof.
  unfold SkipConn.network.
  destruct (Linear.forward (SkipConn.inLayer self) x) as [y0|]; cbn [bind];
    [|discriminate].
  destruct (SkipConn.hidden_loop _ _ _ _ _ _) as [[[cur prev] seen']|] eqn:El;
    cbn [bind]; [|discriminate].
  destruct (cat [cur; prev; x] 1) as [comb|] eqn:Ec; cbn [bind];
    [|discriminate].
  destruct (Linear.forward (SkipConn.outLayer self) comb) as [y1|] eqn:Ey;
    cbn [bind]; [|discriminate].
  intros H. injection H as <- <-.
  destruct (hidden_loop_run _ _ _ _ _ _ _ _ _ El) as (log & -> & Hrun).
  exists y0, log, cur, prev, comb, y1. now repeat split.
Qed.

(** C4.  With [num_hidden_layers >= 1]: the first hidden layer is built for
    [hidden_size+init_size] inputs, every later one and the output layer for
    [2*hidden_size+init_size]; and on a batch of [N] points of the configured
    width [forward] hands each of them [cat([cur, prev, x], 1)], where [prev]
    is [torch.tensor([])] for the first hidden layer and an activation of
    width [hidden_size] afterwards, so that the tensors received have exactly
    those widths.  The output of that run is what [forward] returns when no
    linear map is configured.  The operands are the ones the code computes:
    the first [cur] is the activation of the input layer on [x]; each hidden
    layer is applied to the concatenation it receives, its activation being
    the next [cur] and the [cur] it received the next [prev]; and the output
    is [(tanh(y)+1)/2] of the output layer on the last concatenation. *)
Theorem skipconn_layer_inputs (h L c N : nat)
  (lm : option CenteredLinearMap.t) (act : R -> R) (uc : bool)
  (theta : draws) (x : tensor) :
  1 <= L -> shape x = [N; c] ->
  let self := SkipConn.init h L c lm act uc theta in
  map Linear.in_features (SkipConn.hidden self)
  = (h + c) :: repeat (2 * h + c) (L - 1) /\
  Linear.in_features (SkipConn.outLayer self) = 2 * h + c /\
  exists y seen,
    SkipConn.network self x = Ok (y, seen) /\
    (lm = None -> snd (SkipConn.forward self x) = Ok y) /\
    shape y = [N; 1] /\
    Forall (fun e => cat [SkipConn.r_cur e; SkipConn.r_prev e; x] 1
                     = Ok (SkipConn.r_combined e)) seen /\
    map (fun e => shape (SkipConn.r_cur e)) seen = repeat [N; h] (S L) /\
    map (fun e => shape (SkipConn.r_prev e)) seen = [0] :: repeat [N; h] L /\
    map (fun e => shape (SkipConn.r_combined e)) seen
    = [N; h + c] :: repeat [N; 2 * h + c] L /\
    exists y0 log cur prev combined logits,
      Linear.forward (SkipConn.inLayer self) x = Ok y0 /\
      loop_run act x (SkipConn.hidden self) (tmap act y0) empty log cur prev /\
      seen = log ++ [SkipConn.Received cur prev combined] /\
      Linear.forward (SkipConn.outLayer self) combined = Ok logits /\
      y = tmap squash logits.
Proof.
  intros HL Hx self. split; [|split].
  - destruct L as [|L]; [lia|].
    unfold self, SkipConn.init. cbn [SkipConn.hidden].
    change (seq 0 (S L)) with (0 :: seq 1 L).
    rewrite !map_cons, later_widths by lia.
    simpl. now rewrite Nat.sub_0_r.
  - unfold self. simpl. lia.
  - destruct (network_ok h L c lm act uc theta x N HL Hx)
      as (y & seen & E & Hy & Hs1 & Hs2 & Hs3 & Hs4).
    destruct (network_run _ _ _ _ E)
      as (y0 & log & cur & prev & comb & logits & E0 & Hrun & _ & Hlog & El
          & Hsq).
    exists y, seen. replace (2 * h + c) with (h * 2 + c) by lia.
    split; [exact E|]. split.
    { intros Hlm. unfold self in *. subst lm. unfold SkipConn.forward.
      cbn [SkipConn.init SkipConn._linmap]. cbn [apply_linmap snd bind].
      change (SkipConn.mk _ _ _ _ None uc)
        with (SkipConn.init h L c None act uc theta).
      now rewrite E. }
    do 5 (split; [assumption|]).
    exists y0, log, cur, prev, comb, logits. now repeat split.
Qed.

Lemma skipconn_layer_inputs_witness :
  1 <= 2 /\ shape origin = [1; 2] /\
  let self := SkipConn.init 3 2 2 None LeakyReLU false zero_draws in
  map Linear.in_features (SkipConn.hidden self)
  = (3 + 2) :: repeat (2 * 3 + 2) (2 - 1) /\
  Linear.in_features (SkipConn.outLayer self) = 2 * 3 + 2 /\
  exists y seen,
    SkipConn.network self origin = Ok (y, seen) /\
    (@None CenteredLinearMap.t = None ->
     snd (SkipConn.forward self origin) = Ok y) /\
    shape y = [1; 1] /\
    Forall (fun e => cat [SkipConn.r_cur e; SkipConn.r_prev e; origin] 1
                     = Ok (SkipConn.r_combined e)) seen /\
    map (fun e => shape (SkipConn.r_cur e)) seen = repeat [1; 3] (S 2) /\
    map (fun e => shape (SkipConn.r_prev e)) seen = [0] :: repeat [1; 3] 2 /\
    map (fun e => shape (SkipConn.r_combined e)) seen
    = [1; 3 + 2] :: repeat [1; 2 * 3 + 2] 2 /\
    exists y0 log cur prev combined logits,
      Linear.forward (SkipConn.inLayer self) origin = Ok y0 /\
      loop_run LeakyReLU origin (SkipConn.hidden self) (tmap LeakyReLU y0)
        empty log cur prev /\
      seen = log ++ [SkipConn.Received cur prev combined] /\
      Linear.forward (SkipConn.outLayer self) combined = Ok logits /\
      y = tmap squash logits.
Proof.
  split; [lia|]. split; [reflexivity|].
  apply (skipconn_layer_inputs 3 2 2 1 None LeakyReLU false zero_draws origin);
    [lia|reflexivity].
Defined.

(** ** CenteredLinearMap *)

Lemma chunks_of_concat (n w : nat) (rs : list (list R)) :
  length rs = n -> Forall (fun r => length r = w) rs ->
  chunks n w (concat rs) = rs.
Proof. intros <-. apply chunks_concat. Qed.

Lemma rows_length (x : tensor) (N D : nat) :
  wf x -> shape x = [N; D] ->
  rows x = chunks N D (data x) /\
  length (rows x) = N /\ Forall (fun r => length r = D) (rows x).
Proof.
  unfold wf, rows. intros Hwf Hs. rewrite Hs in *. simpl in *.
  split; [reflexivity|]. split; [apply chunks_length|].
  apply chunks_all_length. lia.
Qed.

Lemma broadcast_same (op : R -> R -> R) (x : tensor) (v : list R)
  (pre : list nat) :
  shape x = pre ++ [length v] ->
  broadcast op x v
  = Ok (Tensor (pre ++ [length v])
          (concat (map (fun row => zip_with op row v)
                     (chunks (numel pre) (length v) (data x))))).
Proof.
  intros H. unfold broadcast. now rewrite H, split_last_app, Nat.eqb_refl.
Qed.

(** [map] on a batch of two columns: one affine map per column. *)
Lemma linmap_map_rows (lm : CenteredLinearMap.t) (sx sy ox oy : R)
  (x : tensor) (N : nat) :
  value (CenteredLinearMap.m lm) = [sx; sy] ->
  value (CenteredLinearMap.b lm) = [ox; oy] ->
  wf x -> shape x = [N; 2] ->
  snd (CenteredLinearMap.map lm x)
  = Ok (Tensor [N; 2]
          (concat (map (fun r => [sx * nth 0 r 0 + ox; sy * nth 1 r 0 + oy]%R)
                     (rows x)))).
Proof.
  intros Hm Hb Hwf Hs.
  destruct (rows_length x N 2 Hwf Hs) as (Hr & Hlen & Hall).
  assert (Hm' : value (CenteredLinearMap.m
                         (fst (CenteredLinearMap.map lm x))) = [sx; sy])
    by (unfold CenteredLinearMap.map; now destruct (CenteredLinearMap.use_cuda lm)).
  assert (Hb' : value (CenteredLinearMap.b
                         (fst (CenteredLinearMap.map lm x))) = [ox; oy])
    by (unfold CenteredLinearMap.map; now destruct (CenteredLinearMap.use_cuda lm)).
  unfold CenteredLinearMap.map in *. cbn [fst snd] in *.
  rewrite Hm', Hb'.
  rewrite (broadcast_same _ x [sx; sy] [N] Hs). cbn [bind].
  rewrite broadcast_same with (pre := [N]) by reflexivity.
  cbn [data length app].
  replace (numel [N]) with N by (simpl; lia).
  rewrite <- Hr.
  rewrite chunks_of_concat.
  - rewrite map_map. do 3 f_equal.
    apply map_ext_in. intros r Hin.
    rewrite Forall_forall in Hall. specialize (Hall r Hin).
    destruct r as [|a [|b0 [|? ?]]]; try discriminate. reflexivity.
  - now rewrite length_map.
  - apply Forall_map. revert Hall. apply Forall_impl.
    intros r Hlr. destruct r as [|a [|b0 [|? ?]]]; try discriminate.
    reflexivity.
Qed.

(** C3.  For [xmin < xmax] and [ymin < ymax] the constructor returns a map
    whose scale is, per axis, [size/(max-min)] when a target size is given
    and 1 otherwise, and whose offset is [-(min+max)*scale/2]; [map] sends
    every point [(x0, x1)] of a batch to
    [(scale_x*x0 + offset_x, scale_y*x1 + offset_y)]; and for
    [xmin = -2.5], [xmax = 1.0] and no [x_size] the scale of the first axis
    is 1 and its offset 0.75. *)
Theorem centered_linear_map_affine (xmin xmax ymin ymax : R)
  (x_size y_size : option R) (use_cuda : bool) :
  (xmin < xmax)%R -> (ymin < ymax)%R ->
  exists lm,
    CenteredLinearMap.init xmin xmax ymin ymax x_size y_size use_cuda = Ok lm /\
    value (CenteredLinearMap.m lm)
    = [scale_of x_size xmin xmax; scale_of y_size ymin ymax] /\
    value (CenteredLinearMap.b lm)
    = [offset_of x_size xmin xmax; offset_of y_size ymin ymax] /\
    (forall (x : tensor) (N : nat),
        wf x -> shape x = [N; 2] ->
        exists y,
          snd (CenteredLinearMap.map lm x) = Ok y /\
          shape y = [N; 2] /\
          rows y
          = map (fun r =>
                   [scale_of x_size xmin xmax * nth 0 r 0
                    + offset_of x_size xmin xmax;
                    scale_of y_size ymin ymax * nth 1 r 0
                    + offset_of y_size ymin ymax]%R)
              (rows x)) /\
    (xmin = CenteredLinearMap.xmin_default ->
     xmax = CenteredLinearMap.xmax_default ->
     x_size = None ->
     nth 0 (value (CenteredLinearMap.m lm)) 0%R = 1%R /\
     nth 0 (value (CenteredLinearMap.b lm)) 0%R = (75 / 100)%R).
Proof.
  intros Hx Hy.
  assert (Ex : match x_size with
               | Some size => truediv size (xmax - xmin)
               | None => Ok 1%R
               end = Ok (scale_of x_size xmin xmax)).
  { destruct x_size as [s|]; [|reflexivity]. unfold truediv.
    destruct (Req_dec_T (xmax - xmin) 0); [lra|reflexivity]. }
  assert (Ey : match y_size with
               | Some size => truediv size (ymax - ymin)
               | None => Ok 1%R
               end = Ok (scale_of y_size ymin ymax)).
  { destruct y_size as [s|]; [|reflexivity]. unfold truediv.
    destruct (Req_dec_T (ymax - ymin) 0); [lra|reflexivity]. }
  unfold CenteredLinearMap.init. rewrite Ex, Ey. cbn [bind].
  eexists. split; [reflexivity|]. cbn [CenteredLinearMap.m CenteredLinearMap.b value].
  fold (offset_of x_size xmin xmax). fold (offset_of y_size ymin ymax).
  split; [reflexivity|]. split; [reflexivity|]. split.
  - intros x N Hwf Hs.
    eexists. split.
    + apply (linmap_map_rows _ (scale_of x_size xmin xmax)
               (scale_of y_size ymin ymax) (offset_of x_size xmin xmax)
               (offset_of y_size ymin ymax) x N); auto.
    + split; [reflexivity|].
      destruct (rows_length x N 2 Hwf Hs) as (_ & Hlen & _).
      unfold rows at 1. cbn [shape data nth].
      apply chunks_of_concat; [now rewrite length_map|].
      apply Forall_map, Forall_forall. reflexivity.
  - intros -> -> ->. cbn [nth]. unfold offset_of, scale_of.
    unfold CenteredLinearMap.xmin_default, CenteredLinearMap.xmax_default.
    split; [reflexivity|]. field.
Qed.

Lemma centered_linear_map_affine_witness :
  (CenteredLinearMap.xmin_default < CenteredLinearMap.xmax_default)%R /\
  (CenteredLinearMap.ymin_default < CenteredLinearMap.ymax_default)%R /\
  exists lm,
    CenteredLinearMap.init CenteredLinearMap.xmin_default
      CenteredLinearMap.xmax_default CenteredLinearMap.ymin_default
      CenteredLinearMap.ymax_default None (Some 544%R) false = Ok lm /\
    nth 0 (value (CenteredLinearMap.m lm)) 0%R = 1%R /\
    nth 0 (value (CenteredLinearMap.b lm)) 0%R = (75 / 100)%R.
Proof.
  assert (Hx : (CenteredLinearMap.xmin_default
                < CenteredLinearMap.xmax_default)%R)
    by (unfold CenteredLinearMap.xmin_default,
          CenteredLinearMap.xmax_default; lra).
  assert (Hy : (CenteredLinearMap.ymin_default
                < CenteredLinearMap.ymax_default)%R)
    by (unfold CenteredLinearMap.ymin_default,
          CenteredLinearMap.ymax_default; lra).
  split; [exact Hx|]. split; [exact Hy|].
  destruct (centered_linear_map_affine _ _ _ _ None (Some 544%R) false Hx Hy)
    as (lm & E & _ & _ & _ & Hd).
  exists lm. split; [exact E|]. now apply Hd.
Defined.

(** ** Placement is all a call changes *)

Lemma linmap_forget (lm : option CenteredLinearMap.t) (x : tensor) :
  apply_linmap (forget_linmap lm) x
  = (forget_linmap lm, snd (apply_linmap lm x)) /\
  forget_linmap (fst (apply_linmap lm x)) = forget_linmap lm /\
  apply_linmap (fst (apply_linmap lm x)) x = apply_linmap lm x.
Proof.
  destruct lm as [[m b [|]]|]; repeat split; reflexivity.
Qed.

Lemma skipconn_forget (s : SkipConn.t) (x : tensor) :
  SkipConn.forward (forget_skipconn s) x
  = (forget_skipconn s, snd (SkipConn.forward s x)) /\
  forget_skipconn (fst (SkipConn.forward s x)) = forget_skipconn s /\
  SkipConn.forward (fst (SkipConn.forward s x)) x = SkipConn.forward s x.
Proof.
  destruct s as [i a h o [[m b [|]]|] uc]; repeat split; reflexivity.
Qed.

Lemma delegate_forget (lm : option CenteredLinearMap.t)
  (expand : tensor -> result tensor) (inner : SkipConn.t) (x : tensor) :
  let r := delegate lm expand inner x in
  delegate (forget_linmap lm) expand (forget_skipconn inner) x
  = (forget_linmap lm, forget_skipconn inner, snd r) /\
  forget_linmap (fst (fst r)) = forget_linmap lm /\
  forget_skipconn (snd (fst r)) = forget_skipconn inner /\
  delegate (fst (fst r)) expand (snd (fst r)) x = r.
Proof.
  unfold delegate.
  destruct (linmap_forget lm x) as (E1 & E2 & E3).
  rewrite E1.
  destruct (apply_linmap lm x) as [lm' rx] eqn:E. cbn [fst snd] in *.
  destruct (bind rx (fun x' => expand x')) as [expanded|e] eqn:B.
  - destruct (skipconn_forget inner expanded) as (F1 & F2 & F3).
    rewrite F1.
    destruct (SkipConn.forward inner expanded) as [inner' y] eqn:F.
    cbn [fst snd] in *. rewrite E3. cbv beta iota. rewrite B, F3.
    now repeat split.
  - cbn [fst snd]. rewrite E3. cbv beta iota. rewrite B. now repeat split.
Qed.

Lemma fourier_forward_delegate (f : Fourier.t) (x : tensor) :
  Fourier.forward f x
  = let '(lm, inner, y) :=
      delegate (Fourier._linmap f)
        (Fourier.features (value (Fourier.orders f)))
        (Fourier.inner_model f) x in
    (Fourier.mk (Fourier.fourier_order f) inner lm (Fourier.orders f), y).
Proof.
  unfold Fourier.forward, delegate.
  destruct (apply_linmap (Fourier._linmap f) x) as [lm rx].
  destruct (bind rx _) as [ff|e]; [|reflexivity].
  now destruct (SkipConn.forward (Fourier.inner_model f) ff).
Qed.

Lemma fourier2d_forward_delegate (f : Fourier2D.t) (x : tensor) :
  Fourier2D.forward f x
  = let '(lm, inner, y) :=
      delegate (Fourier2D._linmap f)
        (Fourier2D.features (value (Fourier2D.orders f)))
        (Fourier2D.inner_model f) x in
    (Fourier2D.mk (Fourier2D.fourier_order f) inner lm (Fourier2D.orders f),
     y).
Proof.
  unfold Fourier2D.forward, delegate.
  destruct (apply_linmap (Fourier2D._linmap f) x) as [lm rx].
  destruct (bind rx _) as [ff|e]; [|reflexivity].
  now destruct (SkipConn.forward (Fourier2D.inner_model f) ff).
Qed.

Lemma taylor_forward_delegate (t : Taylor.t) (x : tensor) :
  Taylor.forward t x
  = let '(lm, inner, y) :=
      delegate (Taylor._linmap t) (Taylor.features (Taylor.taylor_order t))
        (Taylor.inner_model t) x in
    (Taylor.mk (Taylor.taylor_order t) lm inner, y).
Proof.
  unfold Taylor.forward, delegate.
  destruct (apply_linmap (Taylor._linmap t) x) as [lm rx].
  destruct (bind rx _) as [ff|e]; [|reflexivity].
  now destruct (SkipConn.forward (Taylor.inner_model t) ff).
Qed.

Lemma fourier_forward_output (f : Fourier.t) (x : tensor) :
  snd (Fourier.forward f x)
  = x' <- snd (apply_linmap (Fourier._linmap f) x) ;;
    e <- Fourier.features (value (Fourier.orders f)) x' ;;
    snd (SkipConn.forward (Fourier.inner_model f) e).
Proof.
  unfold Fourier.forward.
  destruct (apply_linmap (Fourier._linmap f) x) as [lm [x'|e]];
    cbn [snd bind]; [|reflexivity].
  destruct (Fourier.features _ x') as [e|e]; cbn [snd bind]; [|reflexivity].
  now destruct (SkipConn.forward _ e).
Qed.

Lemma fourier2d_forward_output (f : Fourier2D.t) (x : tensor) :
  snd (Fourier2D.forward f x)
  = x' <- snd (apply_linmap (Fourier2D._linmap f) x) ;;
    e <- Fourier2D.features (value (Fourier2D.orders f)) x' ;;
    snd (SkipConn.forward (Fourier2D.inner_model f) e).
Proof.
  unfold Fourier2D.forward.
  destruct (apply_linmap (Fourier2D._linmap f) x) as [lm [x'|e]];
    cbn [snd bind]; [|reflexivity].
  destruct (Fourier2D.features _ x') as [e|e]; cbn [snd bind]; [|reflexivity].
  now destruct (SkipConn.forward _ e).
Qed.

Lemma taylor_forward_output (t : Taylor.t) (x : tensor) :
  snd (Taylor.forward t x)
  = x' <- snd (apply_linmap (Taylor._linmap t) x) ;;
    e <- Taylor.features (Taylor.taylor_order t) x' ;;
    snd (SkipConn.forward (Taylor.inner_model t) e).
Proof.
  unfold Taylor.forward.
  destruct (apply_linmap (Taylor._linmap t) x) as [lm [x'|e]];
    cbn [snd bind]; [|reflexivity].
  destruct (Taylor.features _ x') as [e|e]; cbn [snd bind]; [|reflexivity].
  now destruct (SkipConn.forward _ e).
Qed.

(** C8.  [forward] is a function of the batch and of the numeric content of
    the model: the model a call leaves behind differs from the one it was
    given at most in the placement of its buffers ([CenteredLinearMap.map]
    re-assigns [self.m] and [self.b] to their [.cuda()] copies), a second
    call on what the first one left returns the same output and leaves the
    same model, and the output is the one the model yields with every
    placement forgotten. *)
Theorem forward_deterministic_and_pure (self : model) (x : tensor) :
  forward (fst (forward self x)) x = forward self x /\
  forget (fst (forward self x)) = forget self /\
  snd (forward (forget self) x) = snd (forward self x).
Proof.
  destruct self as [s|f|f|t]; cbn [forward forget].
  - destruct (skipconn_forget s x) as (F1 & F2 & F3).
    rewrite F1.
    destruct (SkipConn.forward s x) as [s' y] eqn:F.
    cbn [fst snd forward forget] in *.
    rewrite F3, F2. now repeat split.
  - rewrite !fourier_forward_delegate. cbn [Fourier._linmap Fourier.orders
      Fourier.inner_model Fourier.fourier_order forget_buffer value].
    destruct (delegate_forget (Fourier._linmap f)
                (Fourier.features (value (Fourier.orders f)))
                (Fourier.inner_model f) x) as (D1 & D2 & D3 & D4).
    rewrite D1.
    destruct (delegate (Fourier._linmap f) _ (Fourier.inner_model f) x)
      as [[lm' inner'] y] eqn:D.
    cbn [fst snd forward forget] in *. rewrite fourier_forward_delegate.
    cbn [Fourier._linmap Fourier.orders Fourier.inner_model
           Fourier.fourier_order].
    rewrite D4, D2, D3. now repeat split.
  - rewrite !fourier2d_forward_delegate. cbn [Fourier2D._linmap
      Fourier2D.orders Fourier2D.inner_model Fourier2D.fourier_order
      forget_buffer value].
    destruct (delegate_forget (Fourier2D._linmap f)
                (Fourier2D.features (value (Fourier2D.orders f)))
                (Fourier2D.inner_model f) x) as (D1 & D2 & D3 & D4).
    rewrite D1.
    destruct (delegate (Fourier2D._linmap f) _ (Fourier2D.inner_model f) x)
      as [[lm' inner'] y] eqn:D.
    cbn [fst snd forward forget] in *. rewrite fourier2d_forward_delegate.
    cbn [Fourier2D._linmap Fourier2D.orders Fourier2D.inner_model
           Fourier2D.fourier_order].
    rewrite D4, D2, D3. now repeat split.
  - rewrite !taylor_forward_delegate. cbn [Taylor._linmap
      Taylor.inner_model Taylor.taylor_order].
    destruct (delegate_forget (Taylor._linmap t)
                (Taylor.features (Taylor.taylor_order t))
                (Taylor.inner_model t) x) as (D1 & D2 & D3 & D4).
    rewrite D1.
    destruct (delegate (Taylor._linmap t) _ (Taylor.inner_model t) x)
      as [[lm' inner'] y] eqn:D.
    cbn [fst snd forward forget] in *. rewrite taylor_forward_delegate.
    cbn [Taylor._linmap Taylor.inner_model Taylor.taylor_order].
    rewrite D4, D2, D3. now repeat split.
Qed.

(** ** Taylor *)

Lemma series_unfold (t : nat) (x : tensor) :
  Taylor.series t x
  = x :: map (fun n => tmap (fun v => v ^ n)%R x) (seq 1 t).
Proof.
  unfold Taylor.series.
  change (x :: map (fun n => tmap (fun v => v ^ n)%R x) (seq 1 t))
    with ([x] ++ map (fun n => tmap (fun v => v ^ n)%R x) (seq 1 t)).
  generalize [x] as acc. generalize 1 as start.
  induction t as [|t IH]; intros start acc; cbn [seq fold_left map].
  - now rewrite app_nil_r.
  - rewrite IH, <- app_assoc. reflexivity.
Qed.

Lemma sum_nat_repeat (D n : nat) : sum_nat (repeat D n) = D * n.
Proof. induction n as [|n IH]; simpl; [|rewrite IH]; lia. Qed.

(** The expansion of a batch, row by row: the row itself, then its powers
    1 .. taylor_order. *)
Lemma taylor_features_rows (t : nat) (x : tensor) (N D : nat) :
  wf x -> shape x = [N; D] ->
  Taylor.features t x
  = Ok (Tensor [N; D * (t + 1)]
          (concat
             (map (fun r =>
                     r ++ concat (map (fun n => map (fun v => v ^ n)%R r)
                                    (seq 1 t)))
                (rows x)))).
Proof.
  intros Hwf Hs.
  destruct (rows_length x N D Hwf Hs) as (Hr & Hlen & Hall).
  unfold Taylor.features. rewrite series_unfold.
  rewrite (cat_cols N _ (repeat D (S t))); [|discriminate|].
  - rewrite sum_nat_repeat. replace (D * S t) with (D * (t + 1)) by lia.
    do 2 f_equal.
    replace (map (pieces 1 (N * 1))
               (x :: map (fun n => tmap (fun v => v ^ n)%R x) (seq 1 t)))
      with (map (fun f : list R -> list R => map f (rows x))
              ((fun r => r)
                 :: map (fun n => map (fun v => v ^ n)%R) (seq 1 t))).
    + rewrite Nat.mul_1_r, <- Hlen, cat_data_map.
      f_equal. apply map_ext. intros r. cbn [map concat]. f_equal.
      now rewrite map_map.
    + cbn [map]. f_equal.
      * unfold pieces. rewrite Hs, map_id, Hr. cbn [skipn numel fold_right].
        now rewrite !Nat.mul_1_r.
      * rewrite !map_map. apply map_ext. intros n.
        unfold pieces, tmap. cbn [shape data]. rewrite Hs, Hr.
        cbn [skipn numel fold_right].
        now rewrite !Nat.mul_1_r, chunks_map.
  - cbn [map repeat]. rewrite Hs. f_equal.
    rewrite map_map. cbn [tmap shape]. rewrite Hs.
    generalize 1 as start. induction t as [|t IH]; intros start;
      cbn [seq map repeat]; [reflexivity|]. now rewrite IH.
Qed.

(** C7.  With [taylor_order = 0] the loop over [range(1, 1)] adds nothing:
    the expansion of a batch is the batch itself, same shape and same
    entries.  [forward] is the linear map (when one is configured), that
    expansion, and the inner model, which is built for [0*2 + 2 = 2] columns;
    so with no linear map the inner model is called on the batch as it was
    handed in. *)
Theorem taylor_order_zero_is_identity (Phi : R -> R) (h L : nat)
  (lm : option CenteredLinearMap.t) (theta : draws) (x : tensor)
  (N D : nat) :
  wf x -> shape x = [N; D] ->
  Taylor.features 0 x = Ok x /\
  let self := Taylor.init Phi 0 h L lm theta in
  Linear.in_features (SkipConn.inLayer (Taylor.inner_model self)) = 2 /\
  (forall x0,
      snd (Taylor.forward self x0)
      = x' <- snd (apply_linmap lm x0) ;;
        e <- Taylor.features 0 x' ;;
        snd (SkipConn.forward (Taylor.inner_model self) e)) /\
  snd (Taylor.forward (Taylor.init Phi 0 h L None theta) x)
  = snd (SkipConn.forward
           (Taylor.inner_model (Taylor.init Phi 0 h L None theta)) x).
Proof.
  intros Hwf Hs.
  assert (E : Taylor.features 0 x = Ok x).
  { rewrite (taylor_features_rows 0 x N D Hwf Hs).
    destruct (rows_length x N D Hwf Hs) as (Hr & _ & _).
    cbn [seq map concat].
    replace (map (fun r : list R => r ++ []) (rows x)) with (rows x)
      by (rewrite <- (map_id (rows x)) at 1; apply map_ext; intros r;
          now rewrite app_nil_r).
    rewrite Hr, concat_chunks by (unfold wf in Hwf; rewrite Hwf, Hs; simpl; lia).
    destruct x as [s d]. cbn [shape data] in *. subst s.
    replace (D * (0 + 1)) with D by lia. reflexivity. }
  split; [exact E|]. intros self. split; [reflexivity|]. split.
  - intros x0. unfold self. now rewrite taylor_forward_output.
  - rewrite taylor_forward_output.
    cbn [Taylor.init Taylor._linmap apply_linmap snd bind
           Taylor.taylor_order].
    now rewrite E.
Qed.

Lemma taylor_order_zero_is_identity_witness :
  wf origin /\ shape origin = [1; 2] /\
  Taylor.features 0 origin = Ok origin /\
  snd (Taylor.forward
         (Taylor.init (fun _ => (1 / 2)%R) 0 1 1 None zero_draws) origin)
  = snd (SkipConn.forward
           (Taylor.inner_model
              (Taylor.init (fun _ => (1 / 2)%R) 0 1 1 None zero_draws))
           origin).
Proof.
  split; [reflexivity|]. split; [reflexivity|].
  destruct (taylor_order_zero_is_identity (fun _ => (1 / 2)%R) 1 1 None
              zero_draws origin 1 2 eq_refl eq_refl) as (E & _ & _ & F).
  split; [exact E|exact F].
Defined.

Lemma powers_length (r : list R) (start t : nat) :
  length (concat (map (fun n => map (fun v => v ^ n)%R r) (seq start t)))
  = length r * t.
Proof.
  revert start; induction t as [|t IH]; intros start; cbn [seq map concat].
  - simpl. lia.
  - rewrite length_app, length_map, IH. lia.
Qed.

Lemma firstn_exact (r rest : list R) (D : nat) :
  length r = D -> firstn D (r ++ rest) = r.
Proof.
  intros <-. now rewrite firstn_app, Nat.sub_diag, firstn_all, app_nil_r.
Qed.

Lemma skipn_exact (r rest : list R) (D : nat) :
  length r = D -> skipn D (r ++ rest) = rest.
Proof.
  intros <-. now rewrite skipn_app, Nat.sub_diag, skipn_all.
Qed.

(** C10.  With [taylor_order >= 1] the expansion of a batch of width [D] has
    width [D*(taylor_order+1)], and each of its rows starts with the row of
    the batch twice over: once as [x] itself, once as [x**1]; the powers
    2 .. taylor_order follow. *)
Theorem taylor_raw_input_twice (t N D : nat) (x : tensor) :
  1 <= t -> wf x -> shape x = [N; D] ->
  exists f,
    Taylor.features t x = Ok f /\
    shape f = [N; D * (t + 1)] /\
    length (rows x) = N /\
    Forall (fun r => length r = D) (rows x) /\
    rows f
    = map (fun r =>
             r ++ r ++ concat (map (fun n => map (fun v => v ^ n)%R r)
                                 (seq 2 (t - 1))))
        (rows x) /\
    Forall (fun row => firstn D row = firstn D (skipn D row)) (rows f).
Proof.
  intros Ht Hwf Hs.
  destruct (rows_length x N D Hwf Hs) as (Hr & Hlen & Hall).
  rewrite (taylor_features_rows t x N D Hwf Hs).
  eexists. split; [reflexivity|]. split; [reflexivity|].
  split; [exact Hlen|]. split; [exact Hall|].
  assert (Hrows :
    rows (Tensor [N; D * (t + 1)]
            (concat
               (map (fun r =>
                       r ++ concat (map (fun n => map (fun v => v ^ n)%R r)
                                      (seq 1 t)))
                  (rows x))))
    = map (fun r =>
             r ++ r ++ concat (map (fun n => map (fun v => v ^ n)%R r)
                                 (seq 2 (t - 1))))
        (rows x)).
  { unfold rows at 1. cbn [shape data nth].
    rewrite chunks_of_concat.
    - apply map_ext. intros r. f_equal.
      destruct t as [|t]; [lia|].
      replace (S t - 1) with t by lia. cbn [seq map concat]. f_equal.
      rewrite <- (map_id r) at 2. apply map_ext. intros v. apply pow_1.
    - now rewrite length_map.
    - apply Forall_map. revert Hall. apply Forall_impl. intros r Hl.
      rewrite length_app, powers_length, Hl. lia. }
  split; [exact Hrows|].
  rewrite Hrows. apply Forall_map. revert Hall. apply Forall_impl.
  intros r Hl.
  now rewrite (firstn_exact r _ D Hl), (skipn_exact r _ D Hl),
    (firstn_exact r _ D Hl).
Qed.

Lemma taylor_raw_input_twice_witness :
  1 <= 1 /\ wf origin /\ shape origin = [1; 2] /\
  exists f,
    Taylor.features 1 origin = Ok f /\
    shape f = [1; 2 * (1 + 1)] /\
    length (rows origin) = 1 /\
    Forall (fun r => length r = 2) (rows origin) /\
    rows f
    = map (fun r =>
             r ++ r ++ concat (map (fun n => map (fun v => v ^ n)%R r)
                                 (seq 2 (1 - 1))))
        (rows origin) /\
    Forall (fun row => firstn 2 row = firstn 2 (skipn 2 row)) (rows f).
Proof.
  split; [lia|]. split; [reflexivity|]. split; [reflexivity|].
  apply (taylor_raw_input_twice 1 1 2 origin); [lia|reflexivity|reflexivity].
Defined.

(** ** Fourier *)

(** [v * x] for an [x] that has just been unsqueezed: every entry of [x]
    meets every entry of [v]. *)
Lemma broadcast_unsqueezed (op : R -> R -> R) (x : tensor) (v : list R)
  (pre : list nat) :
  shape x = pre ++ [1] -> length (data x) = numel pre ->
  broadcast op x v
  = Ok (Tensor (pre ++ [length v])
          (concat (map (fun a => map (op a) v) (data x)))).
Proof.
  intros Hs Hl. unfold broadcast. rewrite Hs, split_last_app, <- Hl.
  rewrite chunks_singletons, !map_map. cbn [nth].
  destruct (Nat.eqb_spec 1 (length v)) as [E|E]; [|reflexivity].
  rewrite <- E. destruct v as [|k [|? ?]]; try discriminate.
  reflexivity.
Qed.

Lemma rank3_not_legacy_empty (t : tensor) (N D w : nat) :
  shape t = [N; D; w] -> is_legacy_empty t = false.
Proof.
  intros H. unfold is_legacy_empty. rewrite H. now destruct N.
Qed.

(** Concatenating three rank-3 tensors along their last dimension. *)
Lemma cat_last3 (a b c : tensor) (N D wa wb wc : nat) :
  shape a = [N; D; wa] -> shape b = [N; D; wb] -> shape c = [N; D; wc] ->
  cat [a; b; c] (-1)
  = Ok (Tensor [N; D; wa + wb + wc]
          (cat_data (N * D)
             [chunks (N * D) wa (data a); chunks (N * D) wb (data b);
              chunks (N * D) wc (data c)])).
Proof.
  intros Ha Hb Hc. unfold cat. cbn [filter].
  rewrite (rank3_not_legacy_empty _ _ _ _ Ha),
    (rank3_not_legacy_empty _ _ _ _ Hb), (rank3_not_legacy_empty _ _ _ _ Hc).
  cbn [negb]. rewrite Ha. cbn [length].
  change (wrap_dim (-1) 3) with (@Ok nat 2). cbn [bind forallb].
  unfold cat_compatible, pieces. cbn [map]. rewrite Ha, Hb, Hc.
  cbn [length firstn skipn Nat.eqb nth numel fold_right app sum_nat].
  rewrite !shape_eqb_refl. cbn [andb].
  rewrite !Nat.mul_1_r, Nat.add_0_r, Nat.add_assoc. reflexivity.
Qed.

Lemma harmonics_length (K : nat) (v : R) : length (harmonics K v) = 2 * K + 1.
Proof.
  unfold harmonics. rewrite !length_app, !length_map, !length_seq. simpl. lia.
Qed.

(** The expansion of a batch of [N >= 1] points, entry by entry. *)
Lemma fourier_features_data (K N D : nat) (x : tensor) :
  1 <= N -> wf x -> shape x = [N; D] ->
  Fourier.features (arange 1 (K + 1)) x
  = Ok (Tensor [N; D * (2 * K + 1)] (concat (map (harmonics K) (data x)))).
Proof.
  intros HN Hwf Hs. unfold wf in Hwf. rewrite Hs in Hwf.
  cbn [numel fold_right] in Hwf. rewrite Nat.mul_1_r in Hwf.
  unfold Fourier.features, arange. rewrite Nat.add_sub.
  set (v := map INR (seq 1 K)).
  assert (Hv : length v = K) by (unfold v; now rewrite length_map, length_seq).
  assert (Hs3 : shape (unsqueeze_last x) = [N; D] ++ [1])
    by (unfold unsqueeze_last; cbn [shape]; now rewrite Hs).
  rewrite (broadcast_unsqueezed _ (unsqueeze_last x) v [N; D] Hs3)
    by (cbn [unsqueeze_last data numel fold_right]; lia).
  cbn [bind]. rewrite Hv. cbn [unsqueeze_last data app].
  rewrite (cat_last3 _ _ (unsqueeze_last x) N D K K 1);
    [|reflexivity|reflexivity|exact Hs3].
  cbn [bind tmap data shape hd unsqueeze_last].
  rewrite Hs. cbn [app hd].
  rewrite !concat_map, !map_map.
  rewrite <- Hwf at 1 2 3 4.
  rewrite (chunks_of_concat (length (data x)) K),
    (chunks_of_concat (length (data x)) K), chunks_singletons.
  2,4: now rewrite length_map.
  2,3: apply Forall_map, Forall_forall; intros a _;
    now rewrite !length_map.
  change [map (fun a => map sin (map (fun k => (k * a)%R) v)) (data x);
          map (fun a => map cos (map (fun k => (k * a)%R) v)) (data x);
          map (fun a => [a]) (data x)]
    with (map (fun f : R -> list R => map f (data x))
            [fun a => map sin (map (fun k => (k * a)%R) v);
             fun a => map cos (map (fun k => (k * a)%R) v);
             fun a => [a]]).
  rewrite cat_data_map. cbn [map concat].
  unfold view_rows. cbn [shape data numel fold_right].
  destruct (Nat.eqb_spec N 0) as [|_]; [lia|].
  replace (N * (D * ((K + K + 1) * 1))) with (D * (2 * K + 1) * N) by lia.
  rewrite Nat.Div0.mod_mul, Nat.div_mul by lia. cbn [Nat.eqb].
  do 3 f_equal. apply map_ext. intros a.
  unfold harmonics, v. now rewrite !map_map, app_nil_r.
Qed.

Lemma concat_map_concat {A : Type} (H : A -> list R) (rs : list (list A)) :
  concat (map H (concat rs)) = concat (map (fun r => concat (map H r)) rs).
Proof.
  induction rs as [|r rs IH]; cbn [concat map]; [reflexivity|].
  now rewrite map_app, concat_app, IH.
Qed.

Lemma fourier_orders (K h L : nat) (lm : option CenteredLinearMap.t)
  (uc : bool) (theta : draws) :
  value (Fourier.orders (Fourier.init K h L lm uc theta)) = arange 1 (K + 1) /\
  arange 1 (K + 1) = map INR (seq 1 K).
Proof.
  split; [now destruct uc|]. unfold arange. now rewrite Nat.add_sub.
Qed.

Lemma fourier_forward_no_linmap (K h L : nat) (uc : bool) (theta : draws)
  (x : tensor) :
  snd (Fourier.forward (Fourier.init K h L None uc theta) x)
  = f <- Fourier.features (arange 1 (K + 1)) x ;;
    snd (SkipConn.forward
           (Fourier.inner_model (Fourier.init K h L None uc theta)) f).
Proof.
  unfold Fourier.forward.
  rewrite (proj1 (fourier_orders K h L None uc theta)).
  cbn [Fourier.init Fourier._linmap apply_linmap bind Fourier.inner_model].
  destruct (Fourier.features (arange 1 (K + 1)) x) as [f|e]; [|reflexivity].
  cbn [bind]. now destruct (SkipConn.forward _ f).
Qed.

(** C5 (as amended: batches of at least one point).  The orders are the
    integers 1 .. K and the inner model is built for [4*K+2] inputs.
    [forward] is the linear map (when one is configured), the expansion, and
    the inner model called on that expansion.  On a batch of [N >= 1] points
    with two coordinates the expansion has width [4*K+2] and lists, for each
    scalar [v] of the batch in turn, [sin(k*v)] for k = 1 .. K, then
    [cos(k*v)] for k = 1 .. K, then [v]. *)
Theorem fourier_harmonic_features (K h L N : nat)
  (lm : option CenteredLinearMap.t) (uc : bool) (theta : draws)
  (x : tensor) :
  1 <= K -> 1 <= N -> wf x -> shape x = [N; 2] ->
  let self := Fourier.init K h L lm uc theta in
  value (Fourier.orders self) = map INR (seq 1 K) /\
  Linear.in_features (SkipConn.inLayer (Fourier.inner_model self))
  = 4 * K + 2 /\
  (forall x0,
      snd (Fourier.forward self x0)
      = x' <- snd (apply_linmap lm x0) ;;
        e <- Fourier.features (value (Fourier.orders self)) x' ;;
        snd (SkipConn.forward (Fourier.inner_model self) e)) /\
  exists f,
    Fourier.features (value (Fourier.orders self)) x = Ok f /\
    shape f = [N; 4 * K + 2] /\
    data f = concat (map (harmonics K) (data x)) /\
    rows f = map (fun r => concat (map (harmonics K) r)) (rows x).
Proof.
  intros HK HN Hwf Hs self.
  destruct (fourier_orders K h L lm uc theta) as (Ho & Ha).
  fold self in Ho.
  split; [now rewrite Ho|]. split; [unfold self; simpl; lia|].
  split; [intros x0; unfold self; now rewrite fourier_forward_output|].
  destruct (rows_length x N 2 Hwf Hs) as (Hr & Hlen & Hall).
  rewrite Ho, (fourier_features_data K N 2 x HN Hwf Hs).
  replace (2 * (2 * K + 1)) with (4 * K + 2) by lia.
  eexists. split; [reflexivity|]. split; [reflexivity|].
  split; [reflexivity|].
  unfold rows at 1. cbn [shape data nth].
  assert (Hd : data x = concat (rows x)).
  { rewrite Hr, concat_chunks; [reflexivity|].
    unfold wf in Hwf. rewrite Hwf, Hs. simpl. lia. }
  rewrite Hd at 1. rewrite concat_map_concat.
  apply chunks_of_concat; [now rewrite length_map|].
  apply Forall_map. revert Hall. apply Forall_impl. intros r Hl.
  destruct r as [|a [|b [|? ?]]]; try discriminate.
  cbn [map concat]. rewrite !length_app, !harmonics_length. simpl. lia.
Qed.

Lemma fourier_harmonic_features_witness :
  1 <= 1 /\ 1 <= 1 /\ wf origin /\ shape origin = [1; 2] /\
  let self := Fourier.init 1 1 1 None false zero_draws in
  value (Fourier.orders self) = map INR (seq 1 1) /\
  Linear.in_features (SkipConn.inLayer (Fourier.inner_model self))
  = 4 * 1 + 2 /\
  exists f,
    Fourier.features (value (Fourier.orders self)) origin = Ok f /\
    shape f = [1; 4 * 1 + 2] /\
    data f = concat (map (harmonics 1) (data origin)) /\
    rows f = map (fun r => concat (map (harmonics 1) r)) (rows origin).
Proof.
  split; [lia|]. split; [lia|]. split; [reflexivity|]. split; [reflexivity|].
  destruct (fourier_harmonic_features 1 1 1 1 None false zero_draws origin)
    as (Ho & Hi & _ & Hf); [lia|lia|reflexivity|reflexivity|].
  split; [exact Ho|]. split; [exact Hi|exact Hf].
Defined.

(** C5 as stated fails on a batch of no points: [view(0, -1)] cannot infer
    the second size of a tensor without entries, and [forward] raises before
    the inner model is reached. *)
Lemma fourier_empty_batch_raises :
  wf empty_batch /\ shape empty_batch = [0; 2] /\
  Fourier.features (map INR (seq 1 1)) empty_batch = Raise RuntimeError /\
  snd (Fourier.forward (Fourier.init 1 1 1 None false zero_draws) empty_batch)
  = Raise RuntimeError.
Proof. repeat split; reflexivity. Qed.


Lemma network_wrong_width (h L c : nat) (lm : option CenteredLinearMap.t)
  (act : R -> R) (uc : bool) (theta : draws) (x : tensor) (N w : nat) :
  shape x = [N; w] -> w <> c ->
  SkipConn.network (SkipConn.init h L c lm act uc theta) x
  = Raise RuntimeError.
Proof.
  intros Hx Hw. unfold SkipConn.network.
  cbn [SkipConn.init SkipConn.inLayer].
  now rewrite (linear_mismatch (nn_Linear c h (theta 0)) x [N] w Hx Hw).
Qed.

Lemma plain_linmap_is_the_default :
  CenteredLinearMap.init CenteredLinearMap.xmin_default
    CenteredLinearMap.xmax_default CenteredLinearMap.ymin_default
    CenteredLinearMap.ymax_default None None false
  = Ok plain_linmap.
Proof. reflexivity. Qed.

(** C9 (as amended: no linear map, at least one point, at least one hidden
    layer).  The expansion of a batch of width [D] has width [D*(2*K+1)],
    which is the [4*K+2] the inner model was built for exactly when [D = 2];
    [forward] returns an output when [D = 2] and raises a RuntimeError at
    the inner model's input layer for every other width. *)
Theorem fourier_accepts_width_two (K h L N D : nat) (uc : bool)
  (theta : draws) (x : tensor) :
  1 <= K -> 1 <= N -> 1 <= L -> wf x -> shape x = [N; D] ->
  let self := Fourier.init K h L None uc theta in
  (exists f, Fourier.features (value (Fourier.orders self)) x = Ok f /\
             shape f = [N; D * (2 * K + 1)]) /\
  (D * (2 * K + 1) = 4 * K + 2 <-> D = 2) /\
  (is_ok (snd (Fourier.forward self x)) = true <-> D = 2) /\
  (D <> 2 -> snd (Fourier.forward self x) = Raise RuntimeError).
Proof.
  intros HK HN HL Hwf Hs self.
  destruct (fourier_orders K h L None uc theta) as (Ho & _). fold self in Ho.
  assert (Hw : D * (2 * K + 1) = 4 * K + 2 <-> D = 2) by nia.
  assert (Hfwd : snd (Fourier.forward self x)
                 = r <- SkipConn.network (Fourier.inner_model self)
                          (Tensor [N; D * (2 * K + 1)]
                             (concat (map (harmonics K) (data x)))) ;;
                   Ok (fst r)).
  { unfold self. rewrite fourier_forward_no_linmap.
    now rewrite (fourier_features_data K N D x HN Hwf Hs). }
  assert (Hbad : D <> 2 -> snd (Fourier.forward self x) = Raise RuntimeError).
  { intros HD. rewrite Hfwd. unfold self. cbn [Fourier.init Fourier.inner_model].
    rewrite (network_wrong_width h L (K * 4 + 2) None LeakyReLU uc theta
               (Tensor [N; D * (2 * K + 1)]
                  (concat (map (harmonics K) (data x))))
               N (D * (2 * K + 1)) eq_refl); [reflexivity|].
    intros E. apply HD, Hw. lia. }
  split; [|split; [exact Hw|split; [|exact Hbad]]].
  - rewrite Ho, (fourier_features_data K N D x HN Hwf Hs).
    eexists. split; reflexivity.
  - split.
    + intros Hok. destruct (Nat.eq_dec D 2) as [|HD]; [assumption|].
      rewrite (Hbad HD) in Hok. discriminate.
    + intros ->. rewrite Hfwd. unfold self.
      cbn [Fourier.init Fourier.inner_model].
      destruct (network_ok h L (K * 4 + 2) None LeakyReLU uc theta
                  (Tensor [N; 2 * (2 * K + 1)]
                     (concat (map (harmonics K) (data x)))) N HL)
        as (y & seen & E & _).
      { cbn [shape]. do 2 f_equal. lia. }
      now rewrite E.
Qed.

Lemma fourier_accepts_width_two_witness :
  1 <= 1 /\ 1 <= 1 /\ 1 <= 1 /\ wf origin /\ shape origin = [1; 2] /\
  let self := Fourier.init 1 1 1 None false zero_draws in
  (exists f, Fourier.features (value (Fourier.orders self)) origin = Ok f /\
             shape f = [1; 2 * (2 * 1 + 1)]) /\
  (2 * (2 * 1 + 1) = 4 * 1 + 2 <-> 2 = 2) /\
  (is_ok (snd (Fourier.forward self origin)) = true <-> 2 = 2) /\
  (2 <> 2 -> snd (Fourier.forward self origin) = Raise RuntimeError).
Proof.
  split; [lia|]. split; [lia|]. split; [lia|].
  split; [reflexivity|]. split; [reflexivity|].
  apply (fourier_accepts_width_two 1 1 1 1 2 false zero_draws origin);
    [lia|lia|lia|reflexivity|reflexivity].
Defined.

(** C9 as stated fails in both directions: behind the default linear map a
    batch of width 1 is broadcast to width 2 and [forward] returns an
    output; and a batch of width 2 with no points makes [forward] raise. *)
Lemma fourier_width_counterexample :
  (shape column_batch = [1; 1] /\
   is_ok (snd (Fourier.forward
                 (Fourier.init 1 1 1 (Some plain_linmap) false zero_draws)
                 column_batch)) = true) /\
  (shape empty_batch = [0; 2] /\
   is_ok (snd (Fourier.forward
                 (Fourier.init 1 1 1 None false zero_draws)
                 empty_batch)) = false).
Proof. repeat split; reflexivity. Qed.

(** ** Fourier2D *)

Lemma chunks_column {A : Type} (F : A -> R) (l : list A) (N : nat) :
  length l = N -> chunks N 1 (map F l) = map (fun a => [F a]) l.
Proof.
  intros <-. now rewrite <- (length_map F l), chunks_singletons, map_map.
Qed.

(** One cross-product term of a batch with two columns, row by row. *)
Lemma term_rows (f g : R -> R) (n m : R) (x : tensor) (N : nat) :
  wf x -> shape x = [N; 2] ->
  Fourier2D.term f g n m x
  = Ok (Tensor [N; 1]
          (map (fun r => (f (n * nth 0 r 0) * g (m * nth 1 r 0))%R)
             (rows x))).
Proof.
  intros Hwf Hs.
  destruct (rows_length x N 2 Hwf Hs) as (Hr & Hlen & Hall).
  rewrite Forall_forall in Hall.
  unfold Fourier2D.term, select_col. rewrite Hs.
  cbn [Nat.ltb Nat.leb numel fold_right bind Nat.mul Nat.add].
  rewrite <- Hr.
  replace (map (fun c => firstn 1 (skipn 0 c)) (rows x))
    with (map (fun r => [nth 0 r 0%R]) (rows x)).
  2:{ apply map_ext_in. intros r Hin. specialize (Hall r Hin).
      destruct r as [|a [|b [|? ?]]]; try discriminate. reflexivity. }
  replace (map (fun c => firstn 1 (skipn 1 c)) (rows x))
    with (map (fun r => [nth 1 r 0%R]) (rows x)).
  2:{ apply map_ext_in. intros r Hin. specialize (Hall r Hin).
      destruct r as [|a [|b [|? ?]]]; try discriminate. reflexivity. }
  rewrite !concat_singletons.
  unfold tmul, tmap. cbn [shape data]. rewrite shape_eqb_refl. cbn [bind].
  rewrite !map_map, zip_with_map.
  reflexivity.
Qed.

(** The expansion with the single order 0, row by row. *)
Lemma fourier2d_order_zero_rows (x : tensor) (N : nat) :
  wf x -> shape x = [N; 2] ->
  Fourier2D.features [0%R] x
  = Ok (Tensor [N; 6]
          (concat (map (fun r => r ++ [1; 0; 0; 0]%R) (rows x)))).
Proof.
  intros Hwf Hs.
  destruct (rows_length x N 2 Hwf Hs) as (Hr & Hlen & Hall).
  unfold Fourier2D.features. cbn [Fourier2D.loop_n Fourier2D.loop_m].
  rewrite !(term_rows _ _ _ _ x N Hwf Hs). cbn [bind app].
  rewrite (cat_cols N _ [2; 1; 1; 1; 1]); [|discriminate|].
  2:{ cbn [map shape]. now rewrite Hs. }
  cbn [sum_nat fold_right Nat.add]. do 2 f_equal.
  unfold pieces. cbn [map shape data]. rewrite Hs.
  cbn [skipn numel fold_right Nat.mul Nat.add].
  rewrite Nat.mul_1_r, <- Hr.
  rewrite !(chunks_column _ _ N Hlen).
  rewrite <- (map_id (rows x)) at 1.
  change [map (fun r => r) (rows x);
          map (fun r => [(cos (0 * nth 0 r 0) * cos (0 * nth 1 r 0))%R]) (rows x);
          map (fun r => [(cos (0 * nth 0 r 0) * sin (0 * nth 1 r 0))%R]) (rows x);
          map (fun r => [(sin (0 * nth 0 r 0) * cos (0 * nth 1 r 0))%R]) (rows x);
          map (fun r => [(sin (0 * nth 0 r 0) * sin (0 * nth 1 r 0))%R]) (rows x)]
    with (map (fun f : list R -> list R => map f (rows x))
            [fun r => r;
             fun r => [(cos (0 * nth 0 r 0) * cos (0 * nth 1 r 0))%R];
             fun r => [(cos (0 * nth 0 r 0) * sin (0 * nth 1 r 0))%R];
             fun r => [(sin (0 * nth 0 r 0) * cos (0 * nth 1 r 0))%R];
             fun r => [(sin (0 * nth 0 r 0) * sin (0 * nth 1 r 0))%R]]).
  rewrite <- Hlen, cat_data_map.
  f_equal. apply map_ext. intros r. cbn [map concat app].
  rewrite !Rmult_0_l, cos_0, sin_0, Rmult_1_l, !Rmult_0_l, Rmult_0_r.
  reflexivity.
Qed.

Lemma map_constant {A : Type} (c : R) (l : list A) :
  map (fun _ => c) l = repeat c (length l).
Proof. induction l as [|a l IH]; simpl; [|rewrite IH]; reflexivity. Qed.

(** C6.  With [fourier_order = 1] the only order is 0 and the inner model
    is built for 6 inputs.  [forward] is the linear map (when one is
    configured), the expansion, and the inner model called on that
    expansion.  The expansion of a batch of two columns has width exactly 6:
    each row is the two raw coordinates followed by the four products for
    the pair (0,0), whose values are cos*cos = 1, cos*sin = 0, sin*cos = 0
    and sin*sin = 0. *)
Theorem fourier2d_order_one_width_six (h L N : nat)
  (lm : option CenteredLinearMap.t) (uc : bool) (theta : draws)
  (x : tensor) :
  wf x -> shape x = [N; 2] ->
  let self := Fourier2D.init 1 h L lm uc theta in
  value (Fourier2D.orders self) = [0%R] /\
  Linear.in_features (SkipConn.inLayer (Fourier2D.inner_model self)) = 6 /\
  (forall x0,
      snd (Fourier2D.forward self x0)
      = x' <- snd (apply_linmap lm x0) ;;
        e <- Fourier2D.features (value (Fourier2D.orders self)) x' ;;
        snd (SkipConn.forward (Fourier2D.inner_model self) e)) /\
  Fourier2D.term cos cos 0 0 x = Ok (Tensor [N; 1] (repeat 1%R N)) /\
  Fourier2D.term cos sin 0 0 x = Ok (Tensor [N; 1] (repeat 0%R N)) /\
  Fourier2D.term sin cos 0 0 x = Ok (Tensor [N; 1] (repeat 0%R N)) /\
  Fourier2D.term sin sin 0 0 x = Ok (Tensor [N; 1] (repeat 0%R N)) /\
  Forall (fun r => length r = 2) (rows x) /\
  exists f,
    Fourier2D.features (value (Fourier2D.orders self)) x = Ok f /\
    shape f = [N; 6] /\
    rows f = map (fun r => r ++ [1; 0; 0; 0]%R) (rows x).
Proof.
  intros Hwf Hs self.
  destruct (rows_length x N 2 Hwf Hs) as (Hr & Hlen & Hall).
  assert (Ho : value (Fourier2D.orders self) = [0%R])
    by (unfold self; now destruct uc).
  split; [exact Ho|]. split; [reflexivity|].
  split; [intros x0; unfold self; now rewrite fourier2d_forward_output|].
  rewrite !(term_rows _ _ _ _ x N Hwf Hs).
  assert (Hterm : forall (f g : R -> R) (c : R),
             (f 0 * g 0 = c)%R ->
             map (fun r => (f (0 * nth 0 r 0) * g (0 * nth 1 r 0))%R) (rows x)
             = repeat c N).
  { intros f g c Hc. rewrite <- Hlen, <- map_constant.
    apply map_ext. intros r. now rewrite !Rmult_0_l. }
  rewrite (Hterm cos cos 1%R), (Hterm cos sin 0%R), (Hterm sin cos 0%R),
    (Hterm sin sin 0%R) by (rewrite ?cos_0, ?sin_0; lra).
  do 4 (split; [reflexivity|]). split; [exact Hall|].
  rewrite Ho, (fourier2d_order_zero_rows x N Hwf Hs).
  eexists. split; [reflexivity|]. split; [reflexivity|].
  unfold rows at 1. cbn [shape data nth].
  apply chunks_of_concat; [now rewrite length_map|].
  apply Forall_map. revert Hall. apply Forall_impl. intros r Hl.
  rewrite length_app, Hl. reflexivity.
Qed.

Lemma fourier2d_order_one_width_six_witness :
  wf origin /\ shape origin = [1; 2] /\
  let self := Fourier2D.init 1 1 1 None false zero_draws in
  value (Fourier2D.orders self) = [0%R] /\
  Linear.in_features (SkipConn.inLayer (Fourier2D.inner_model self)) = 6 /\
  exists f,
    Fourier2D.features (value (Fourier2D.orders self)) origin = Ok f /\
    shape f = [1; 6] /\
    rows f = map (fun r => r ++ [1; 0; 0; 0]%R) (rows origin).
Proof.
  split; [reflexivity|]. split; [reflexivity|].
  destruct (fourier2d_order_one_width_six 1 1 1 None false zero_draws origin
              eq_refl eq_refl)
    as (Ho & Hi & _ & _ & _ & _ & _ & _ & Hf).
  split; [exact Ho|]. split; [exact Hi|exact Hf].
Defined.

(** * Further properties of the code *)

(** ** Outputs are well-formed *)

Lemma numel_app (p q : list nat) : numel (p ++ q) = numel p * numel q.
Proof.
  unfold numel. induction p as [|a p IH]; simpl.
  - lia.
  - rewrite IH. ring.
Qed.

Lemma concat_length_uniform {A : Type} (k : nat) (rs : list (list A)) :
  Forall (fun r => length r = k) rs -> length (concat rs) = length rs * k.
Proof.
  induction 1 as [|r rs Hr _ IH]; cbn [concat length]; [reflexivity|].
  rewrite length_app, IH, Hr. lia.
Qed.

Lemma linear_wf (l : Linear.t) (x y : tensor) :
  Linear.forward l x = Ok y -> wf y.
Proof.
  unfold Linear.forward.
  destruct (split_last (shape x)) as [[pre d]|]; [|discriminate].
  destruct (d =? Linear.in_features l); [|discriminate].
  intros H. injection H as <-. unfold wf. cbn [shape data].
  rewrite (concat_length_uniform (Linear.out_features l)).
  - rewrite length_map, chunks_length, numel_app. simpl. lia.
  - apply Forall_map, Forall_forall. intros r _.
    now rewrite length_map, length_seq.
Qed.

Lemma network_wf (self : SkipConn.t) (x y : tensor)
  (seen : list SkipConn.received) :
  SkipConn.network self x = Ok (y, seen) -> wf y.
Proof.
  unfold SkipConn.network.
  destruct (Linear.forward (SkipConn.inLayer self) x) as [y0|]; cbn [bind];
    [|discriminate].
  destruct (SkipConn.hidden_loop _ _ _ _ _ _) as [[[cur prev] seen']|];
    cbn [bind]; [|discriminate].
  destruct (cat [cur; prev; x] 1) as [comb|]; cbn [bind]; [|discriminate].
  destruct (Linear.forward (SkipConn.outLayer self) comb) as [y1|] eqn:E;
    cbn [bind]; [|discriminate].
  intros H. injection H as <- _.
  pose proof (linear_wf _ _ _ E) as Hw. unfold wf in *. cbn [tmap shape data].
  now rewrite length_map.
Qed.

(** With neither hidden layers nor hidden width the widths agree again. *)
Lemma network_no_hidden_no_width (c : nat) (lm : option CenteredLinearMap.t)
  (act : R -> R) (uc : bool) (theta : draws) (x : tensor) (N : nat) :
  shape x = [N; c] ->
  exists y seen,
    SkipConn.network (SkipConn.init 0 0 c lm act uc theta) x = Ok (y, seen) /\
    shape y = [N; 1].
Proof.
  intros Hx.
  unfold SkipConn.network, SkipConn.init.
  cbn [SkipConn.inLayer SkipConn.hidden SkipConn.outLayer SkipConn.activation].
  destruct (linear_ok (nn_Linear c 0 (theta 0)) x [N] Hx) as (y0 & E0 & H0).
  rewrite E0. cbn [bind seq map SkipConn.hidden_loop]. simpl in H0.
  destruct (cat3_first (tmap act y0) x N 0 c H0 Hx) as (comb & Ec & Hcomb).
  rewrite Ec. cbn [bind].
  destruct (linear_ok (nn_Linear (0 * 2 + c) 1 (theta 1)) comb [N] Hcomb)
    as (y & Ey & Hy).
  rewrite Ey. cbn [bind]. eexists _, _. split; [reflexivity|]. exact Hy.
Qed.

(** X1.  Which batches a SkipConn without linear map accepts: a batch of
    shape [N, w] gives an output, of shape [N, 1] and well-formed, exactly
    when [w] is the configured [init_size] and the model has a hidden layer
    (or no hidden width at all); every other case raises a RuntimeError. *)
Theorem skipconn_forward_accepts (h L c N w : nat) (act : R -> R)
  (uc : bool) (theta : draws) (x : tensor) :
  shape x = [N; w] ->
  let self := SkipConn.init h L c None act uc theta in
  (w = c /\ (1 <= L \/ h = 0) ->
   exists y, snd (SkipConn.forward self x) = Ok y /\
             shape y = [N; 1] /\ wf y) /\
  (~ (w = c /\ (1 <= L \/ h = 0)) ->
   snd (SkipConn.forward self x) = Raise RuntimeError).
Proof.
  intros Hx self.
  assert (Hf : snd (SkipConn.forward self x)
               = r <- SkipConn.network self x ;; Ok (fst r)) by reflexivity.
  rewrite Hf. unfold self. split.
  - intros [-> Hshape].
    assert (Hnet : exists y seen,
               SkipConn.network (SkipConn.init h L c None act uc theta) x
               = Ok (y, seen) /\ shape y = [N; 1]).
    { destruct (Nat.eq_dec L 0) as [->|HL].
      - destruct Hshape as [HL| ->]; [lia|].
        apply network_no_hidden_no_width; assumption.
      - destruct (network_ok h L c None act uc theta x N) as
          (y & seen & E & Hy & _); [lia|assumption|].
        now exists y, seen. }
    destruct Hnet as (y & seen & E & Hy).
    exists y. rewrite E. cbn [bind fst]. split; [reflexivity|].
    split; [exact Hy|]. exact (network_wf _ _ _ _ E).
  - intros Hn.
    destruct (Nat.eq_dec w c) as [->|Hw].
    + assert (L = 0 /\ 1 <= h) as [-> Hh] by lia.
      now rewrite (network_no_hidden h c None act uc theta x N Hh Hx).
    + now rewrite (network_wrong_width h L c None act uc theta x N w Hx Hw).
Qed.

Lemma skipconn_forward_accepts_witness :
  shape origin = [1; 2] /\
  (exists y,
      snd (SkipConn.forward
             (SkipConn.init 50 5 2 None LeakyReLU false zero_draws) origin)
      = Ok y /\ shape y = [1; 1] /\ wf y) /\
  snd (SkipConn.forward
         (SkipConn.init 50 5 3 None LeakyReLU false zero_draws) origin)
  = Raise RuntimeError.
Proof.
  split; [reflexivity|]. split.
  - apply (skipconn_forward_accepts 50 5 2 1 2 LeakyReLU false zero_draws
             origin eq_refl). split; [reflexivity|left; lia].
  - apply (skipconn_forward_accepts 50 5 3 1 2 LeakyReLU false zero_draws
             origin eq_refl). lia.
Defined.

(** ** The network works point by point *)

Lemma presented_ext {A : Type} (t : tensor) (N w : nat)
  (f g : A -> list R) (l : list A) :
  (forall a, f a = g a) -> presented t N w f l -> presented t N w g l.
Proof.
  intros Hfg (Hs & Hd & Hl). split; [exact Hs|]. split.
  - rewrite Hd. f_equal. apply map_ext. exact Hfg.
  - revert Hl. apply Forall_impl. intros a. now rewrite Hfg.
Qed.

Lemma presented_rows (x : tensor) (N D : nat) :
  wf x -> shape x = [N; D] ->
  presented x N D (fun r => r) (rows x) /\ length (rows x) = N.
Proof.
  intros Hwf Hs. destruct (rows_length x N D Hwf Hs) as (Hr & Hlen & Hall).
  split; [|exact Hlen]. split; [exact Hs|]. split; [|exact Hall].
  rewrite map_id, Hr, concat_chunks; [reflexivity|].
  unfold wf in Hwf. rewrite Hwf, Hs. simpl. lia.
Qed.

Lemma presented_pieces {A : Type} (t : tensor) (N w : nat)
  (f : A -> list R) (l : list A) :
  length l = N -> presented t N w f l ->
  pieces 1 N t = map f l /\ chunks N w (data t) = map f l.
Proof.
  intros Hlen (Hs & Hd & Hl). unfold pieces. rewrite Hs, Hd.
  cbn [skipn numel fold_right]. rewrite !Nat.mul_1_r.
  assert (E : chunks N w (concat (map f l)) = map f l)
    by (apply chunks_of_concat; [now rewrite length_map|now apply Forall_map]).
  now rewrite E.
Qed.

Lemma linear_presented {A : Type} (layer : Linear.t) (t y : tensor)
  (N w : nat) (f : A -> list R) (l : list A) :
  length l = N -> presented t N w f l ->
  Linear.forward layer t = Ok y ->
  presented y N (Linear.out_features layer)
    (fun a => linear_row layer (f a)) l.
Proof.
  intros Hlen Hp. destruct (presented_pieces t N w f l Hlen Hp) as (_ & Hc).
  destruct Hp as (Hs & Hd & Hl).
  unfold Linear.forward. rewrite Hs.
  change (split_last [N; w]) with (Some ([N], w)). cbv beta iota.
  destruct (Nat.eqb_spec w (Linear.in_features layer)) as [E|];
    [|intros H; discriminate H].
  intros H. injection H as <-. subst w.
  cbn [numel fold_right]. rewrite Nat.mul_1_r, Hc, map_map.
  split; [reflexivity|]. split; [reflexivity|].
  apply Forall_forall. intros a _. unfold linear_row.
  now rewrite length_map, length_seq.
Qed.

Lemma tmap_presented {A : Type} (g : R -> R) (t : tensor) (N w : nat)
  (f : A -> list R) (l : list A) :
  presented t N w f l -> presented (tmap g t) N w (fun a => map g (f a)) l.
Proof.
  intros (Hs & Hd & Hl). split; [exact Hs|]. split.
  - cbn [tmap data]. now rewrite Hd, concat_map, map_map.
  - revert Hl. apply Forall_impl. intros a. now rewrite length_map.
Qed.

(** Concatenating, along dimension 1, tensors that are all given row by row
    over the same list. *)
Lemma cat_presented {A : Type} (N : nat) (l : list A)
  (items : list (tensor * nat * (A -> list R))) :
  length l = N -> items <> [] ->
  Forall (fun it => presented (fst (fst it)) N (snd (fst it)) (snd it) l)
    items ->
  presented
    (Tensor [N; sum_nat (map (fun it => snd (fst it)) items)]
       (concat (map (fun a => concat (map (fun it => snd it a) items)) l)))
    N (sum_nat (map (fun it => snd (fst it)) items))
    (fun a => concat (map (fun it => snd it a) items)) l /\
  cat (map (fun it => fst (fst it)) items) 1
  = Ok (Tensor [N; sum_nat (map (fun it => snd (fst it)) items)]
          (concat (map (fun a => concat (map (fun it => snd it a) items)) l))).
Proof.
  intros Hlen Hne Hall. split.
  - split; [reflexivity|]. split; [reflexivity|].
    apply Forall_forall. intros a Ha.
    clear Hne. induction Hall as [|it items (Hs & Hd & Hl) _ IH];
      cbn [map concat sum_nat fold_right]; [reflexivity|].
    rewrite length_app. fold (sum_nat (map (fun it => snd (fst it)) items)).
    rewrite IH. rewrite Forall_forall in Hl. now rewrite (Hl a Ha).
  - rewrite (cat_cols N _ (map (fun it => snd (fst it)) items)).
    + do 2 f_equal.
      assert (E : concat (map (fun a => concat (map (fun it => snd it a) items))
                            l)
                  = cat_data (length l)
                      (map (fun f : A -> list R => map f l)
                         (map (fun it => snd it) items))).
      { rewrite cat_data_map. f_equal. apply map_ext. intros a.
        now rewrite map_map. }
      rewrite E, Nat.mul_1_r, Hlen. f_equal.
      rewrite !map_map. apply map_ext_in. intros it Hin.
      rewrite Forall_forall in Hall.
      now destruct (presented_pieces _ _ _ _ _ Hlen (Hall it Hin)).
    + destruct items; [congruence|discriminate].
    + rewrite !map_map. apply map_ext_in. intros it Hin.
      rewrite Forall_forall in Hall. now destruct (Hall it Hin).
Qed.

Lemma cat_cur_prev_x (N c wc : nat) (l : list (list R))
  (x cur prev comb : tensor) (fc fp : list R -> list R) :
  length l = N ->
  presented x N c (fun r => r) l ->
  presented cur N wc fc l ->
  prev_presented prev N fp l ->
  cat [cur; prev; x] 1 = Ok comb ->
  exists w, presented comb N w (fun a => fc a ++ fp a ++ a) l.
Proof.
  intros Hlen Hx Hc [[-> Hfp]|[wp Hp]] Hcat.
  - rewrite cat_skip_empty in Hcat
      by (destruct Hc as (Hs & _); exact (rank2_not_legacy_empty _ _ _ Hs)).
    destruct (cat_presented N l [(cur, wc, fc); (x, c, fun r => r)] Hlen)
      as (Hq & E);
      [discriminate|constructor; [exact Hc|constructor; [exact Hx|constructor]]|].
    cbn [map fst snd] in E. rewrite E in Hcat. injection Hcat as <-.
    eexists. refine (presented_ext _ _ _ _ _ _ _ Hq).
    intros a. cbn [map concat snd]. now rewrite Hfp, app_nil_r.
  - destruct (cat_presented N l
                [(cur, wc, fc); (prev, wp, fp); (x, c, fun r => r)] Hlen)
      as (Hq & E);
      [discriminate
      |constructor; [exact Hc|constructor; [exact Hp|constructor;
                                            [exact Hx|constructor]]]|].
    cbn [map fst snd] in E. rewrite E in Hcat. injection Hcat as <-.
    eexists. refine (presented_ext _ _ _ _ _ _ _ Hq).
    intros a. cbn [map concat snd]. now rewrite app_nil_r.
Qed.

Lemma hidden_loop_rows (act : R -> R) (N c : nat) (l : list (list R))
  (x : tensor) (layers : list Linear.t) :
  length l = N ->
  presented x N c (fun r => r) l ->
  forall cur prev seen wc fc fp cur' prev' seen',
    presented cur N wc fc l ->
    prev_presented prev N fp l ->
    SkipConn.hidden_loop act layers x cur prev seen = Ok (cur', prev', seen') ->
    (exists wc',
        presented cur' N wc'
          (fun a => fst (hidden_rows act layers a (fc a) (fp a))) l) /\
    prev_presented prev' N
      (fun a => snd (hidden_rows act layers a (fc a) (fp a))) l.
Proof.
  intros Hlen Hx. induction layers as [|layer rest IH];
    intros cur prev seen wc fc fp cur' prev' seen' Hc Hp Hloop.
  - cbn [SkipConn.hidden_loop] in Hloop. injection Hloop as <- <- _.
    split; [exists wc; exact Hc|exact Hp].
  - cbn [SkipConn.hidden_loop] in Hloop.
    destruct (cat [cur; prev; x] 1) as [comb|] eqn:Ecat; cbn [bind] in Hloop;
      [|discriminate].
    destruct (Linear.forward layer comb) as [y|] eqn:Ey; cbn [bind] in Hloop;
      [|discriminate].
    destruct (cat_cur_prev_x N c wc l x cur prev comb fc fp Hlen Hx Hc Hp Ecat)
      as (w & Hcomb).
    pose proof (tmap_presented act _ _ _ _ _
                  (linear_presented layer comb y N w _ l Hlen Hcomb Ey))
      as Hnew.
    exact (IH _ _ _ _ _ fc _ _ _ Hnew (or_intror (ex_intro _ wc Hc)) Hloop).
Qed.

Lemma point_forward_unfold (self : SkipConn.t) (a : list R) :
  point_forward self a
  = map (fun v => (tanh v + 1) / 2)%R
      (linear_row (SkipConn.outLayer self)
         (fst (hidden_rows (SkipConn.activation self) (SkipConn.hidden self)
                 a (map (SkipConn.activation self)
                      (linear_row (SkipConn.inLayer self) a)) [])
          ++ snd (hidden_rows (SkipConn.activation self)
                    (SkipConn.hidden self) a
                    (map (SkipConn.activation self)
                       (linear_row (SkipConn.inLayer self) a)) [])
          ++ a)).
Proof.
  unfold point_forward. now destruct (hidden_rows _ _ _ _ _).
Qed.

Lemma network_rows (self : SkipConn.t) (x y : tensor) (N c : nat)
  (seen : list SkipConn.received) :
  wf x -> shape x = [N; c] ->
  SkipConn.network self x = Ok (y, seen) ->
  presented y N (Linear.out_features (SkipConn.outLayer self))
    (point_forward self) (rows x).
Proof.
  intros Hwf Hs Hnet.
  destruct (presented_rows x N c Hwf Hs) as (Hx & Hlen).
  unfold SkipConn.network in Hnet.
  destruct (Linear.forward (SkipConn.inLayer self) x) as [y0|] eqn:E0;
    cbn [bind] in Hnet; [|discriminate].
  destruct (SkipConn.hidden_loop _ _ _ _ _ _) as [[[cur prev] seen']|] eqn:El;
    cbn [bind] in Hnet; [|discriminate].
  destruct (cat [cur; prev; x] 1) as [comb|] eqn:Ecat; cbn [bind] in Hnet;
    [|discriminate].
  destruct (Linear.forward (SkipConn.outLayer self) comb) as [y1|] eqn:E1;
    cbn [bind] in Hnet; [|discriminate].
  injection Hnet as <- _.
  pose proof (tmap_presented (SkipConn.activation self) _ _ _ _ _
                (linear_presented _ x y0 N c _ _ Hlen Hx E0)) as Hcur0.
  destruct (hidden_loop_rows _ N c _ x _ Hlen Hx _ _ _ _ _ (fun _ => [])
              _ _ _ Hcur0 (or_introl (conj eq_refl (fun _ => eq_refl))) El)
    as ((wc & Hcur) & Hprev).
  destruct (cat_cur_prev_x N c wc _ x cur prev comb _ _ Hlen Hx Hcur Hprev Ecat)
    as (w & Hcomb).
  pose proof (tmap_presented (fun v => (tanh v + 1) / 2)%R _ _ _ _ _
                (linear_presented _ comb y1 N w _ _ Hlen Hcomb E1)) as Hy.
  apply (presented_ext _ _ _ _ (point_forward self)) in Hy;
    [exact Hy|intros a; now rewrite point_forward_unfold].
Qed.

Lemma presented_wf_rows {A : Type} (t : tensor) (N w : nat)
  (f : A -> list R) (l : list A) :
  length l = N -> presented t N w f l ->
  wf t /\ shape t = [N; w] /\ chunks N w (data t) = map f l.
Proof.
  intros Hlen Hp. destruct (presented_pieces t N w f l Hlen Hp) as (_ & Hch).
  destruct Hp as (Hs & Hd & Hl). split; [|split; [exact Hs|exact Hch]].
  unfold wf. rewrite Hs, Hd.
  rewrite (concat_length_uniform w) by now apply Forall_map.
  rewrite length_map, Hlen. simpl. lia.
Qed.

(** X2.  The network treats the points of a batch one by one: whenever
    [forward]'s body returns an output for a batch, row number [i] of the
    output is what the layers compute from row number [i] of the batch
    alone, whatever the other rows are. *)
Theorem network_pointwise (self : SkipConn.t) (x y : tensor) (N c : nat)
  (seen : list SkipConn.received) :
  wf x -> shape x = [N; c] ->
  SkipConn.network self x = Ok (y, seen) ->
  shape y = [N; Linear.out_features (SkipConn.outLayer self)] /\
  data y = concat (map (point_forward self) (rows x)) /\
  rows y = map (point_forward self) (rows x).
Proof.
  intros Hwf Hs Hnet.
  pose proof (network_rows self x y N c seen Hwf Hs Hnet) as Hy.
  destruct (rows_length x N c Hwf Hs) as (_ & Hlen & _).
  destruct (presented_wf_rows _ _ _ _ _ Hlen Hy) as (_ & Hsy & Hch).
  destruct Hy as (_ & Hdy & _).
  split; [exact Hsy|]. split; [exact Hdy|].
  unfold rows at 1. now rewrite Hsy.
Qed.

Lemma network_pointwise_witness :
  wf origin /\ shape origin = [1; 2] /\
  exists y seen,
    SkipConn.network (SkipConn.init 1 1 2 None LeakyReLU false zero_draws)
      origin = Ok (y, seen) /\
    rows y
    = map (point_forward
             (SkipConn.init 1 1 2 None LeakyReLU false zero_draws))
        (rows origin).
Proof.
  split; [reflexivity|]. split; [reflexivity|].
  eexists _, _. split; [reflexivity|].
  eapply (network_pointwise
            (SkipConn.init 1 1 2 None LeakyReLU false zero_draws) origin _
            1 2); reflexivity.
Defined.

(** ** CenteredLinearMap: construction *)

Lemma axis_scale_cases (size : option R) (lo hi : R) :
  let r := match size with
           | Some s => truediv s (hi - lo)
           | None => Ok 1%R
           end in
  (size <> None /\ hi = lo /\ r = Raise ZeroDivisionError) \/
  (~ (size <> None /\ hi = lo) /\ exists v, r = Ok v).
Proof.
  destruct size as [s|]; cbn zeta.
  - unfold truediv. destruct (Req_dec_T (hi - lo) 0) as [E|E].
    + left. repeat split; [discriminate|lra].
    + right. split; [intros [_ H]; lra|now eexists].
  - right. split; [intros [H _]; now apply H|now eexists].
Qed.

(** X4.  The constructor raises exactly when it divides by a zero side: a
    ZeroDivisionError when a target size is given for an axis whose [min] and
    [max] coincide; in every other case, also for a degenerate axis without
    target size, it returns a map. *)
Theorem centered_linear_map_init_faults (xmin xmax ymin ymax : R)
  (x_size y_size : option R) (use_cuda : bool) :
  let degenerate :=
    (x_size <> None /\ xmax = xmin) \/ (y_size <> None /\ ymax = ymin) in
  (degenerate <->
   CenteredLinearMap.init xmin xmax ymin ymax x_size y_size use_cuda
   = Raise ZeroDivisionError) /\
  (~ degenerate <->
   is_ok (CenteredLinearMap.init xmin xmax ymin ymax x_size y_size use_cuda)
   = true).
Proof.
  intros degenerate. unfold degenerate, CenteredLinearMap.init.
  destruct (axis_scale_cases x_size xmin xmax)
    as [(Hx1 & Hx2 & ->)|(Hx & vx & ->)]; cbn [bind is_ok].
  - split; split; intros H; try reflexivity; try discriminate.
    + left. now split.
    + exfalso. apply H. left. now split.
  - destruct (axis_scale_cases y_size ymin ymax)
      as [(Hy1 & Hy2 & ->)|(Hy & vy & ->)]; cbn [bind is_ok].
    + split; split; intros H; try reflexivity; try discriminate.
      * right. now split.
      * exfalso. apply H. right. now split.
    + split; split; intros H; try reflexivity; try discriminate.
      * destruct H as [H|H]; [now apply Hx in H|now apply Hy in H].
      * intros [H'|H']; [now apply Hx|now apply Hy].
Qed.

Lemma init_two_axes (xmin xmax ymin ymax : R) (x_size y_size : option R)
  (use_cuda : bool) (lm : CenteredLinearMap.t) :
  CenteredLinearMap.init xmin xmax ymin ymax x_size y_size use_cuda = Ok lm ->
  exists sx sy ox oy,
    value (CenteredLinearMap.m lm) = [sx; sy] /\
    value (CenteredLinearMap.b lm) = [ox; oy].
Proof.
  unfold CenteredLinearMap.init.
  destruct (match x_size with Some _ => _ | None => _ end) as [vx|];
    cbn [bind]; [|discriminate].
  destruct (match y_size with Some _ => _ | None => _ end) as [vy|];
    cbn [bind]; [|discriminate].
  intros H. injection H as <-. now eexists _, _, _, _.
Qed.

(** ** CenteredLinearMap: batches of other widths *)

Lemma broadcast_wrong_width (op : R -> R -> R) (x : tensor) (v : list R)
  (N D : nat) :
  shape x = [N; D] -> length v = 2 -> D <> 1 -> D <> 2 ->
  broadcast op x v = Raise RuntimeError.
Proof.
  intros Hs Hv H1 H2. unfold broadcast. rewrite Hs, Hv.
  change (split_last [N; D]) with (Some ([N], D)). cbv beta iota.
  destruct (Nat.eqb_spec D 2); [lia|].
  destruct (Nat.eqb_spec D 1); [lia|]. reflexivity.
Qed.

Lemma broadcast_shape (op : R -> R -> R) (x : tensor) (v : list R)
  (N D : nat) :
  shape x = [N; D] -> length v = 2 -> D = 1 \/ D = 2 ->
  exists y, broadcast op x v = Ok y /\ shape y = [N; 2].
Proof.
  intros Hs Hv HD. unfold broadcast. rewrite Hs, Hv.
  change (split_last [N; D]) with (Some ([N], D)). cbv beta iota.
  destruct HD as [-> | ->]; cbn [Nat.eqb]; eexists; split; reflexivity.
Qed.

Lemma map_output (lm : CenteredLinearMap.t) (x : tensor) :
  snd (CenteredLinearMap.map lm x)
  = mx <- broadcast (fun a s => s * a)%R x (value (CenteredLinearMap.m lm)) ;;
    broadcast (fun a o => a + o)%R mx (value (CenteredLinearMap.b lm)).
Proof.
  unfold CenteredLinearMap.map. now destruct (CenteredLinearMap.use_cuda lm).
Qed.

Lemma map_shape (lm : CenteredLinearMap.t) (x : tensor) (N D : nat) :
  length (value (CenteredLinearMap.m lm)) = 2 ->
  length (value (CenteredLinearMap.b lm)) = 2 ->
  shape x = [N; D] ->
  (D = 1 \/ D = 2 ->
   exists y, snd (CenteredLinearMap.map lm x) = Ok y /\ shape y = [N; 2]) /\
  (D <> 1 -> D <> 2 ->
   snd (CenteredLinearMap.map lm x) = Raise RuntimeError).
Proof.
  intros Hm Hb Hs. rewrite map_output. split.
  - intros HD.
    destruct (broadcast_shape (fun a s => s * a)%R x _ N D Hs Hm HD)
      as (mx & E & Hmx).
    rewrite E. cbn [bind].
    exact (broadcast_shape _ mx _ N 2 Hmx Hb (or_intror eq_refl)).
  - intros H1 H2.
    now rewrite (broadcast_wrong_width _ x _ N D Hs Hm H1 H2).
Qed.

Lemma map_column_rows (lm : CenteredLinearMap.t) (sx sy ox oy : R)
  (x : tensor) (N : nat) :
  value (CenteredLinearMap.m lm) = [sx; sy] ->
  value (CenteredLinearMap.b lm) = [ox; oy] ->
  wf x -> shape x = [N; 1] ->
  snd (CenteredLinearMap.map lm x)
  = Ok (Tensor [N; 2]
          (concat (map (fun v => [sx * v + ox; sy * v + oy]%R) (data x)))).
Proof.
  intros Hm Hb Hwf Hs. rewrite map_output, Hm, Hb.
  unfold wf in Hwf. rewrite Hs in Hwf. cbn [numel fold_right] in Hwf.
  rewrite (broadcast_unsqueezed _ x [sx; sy] [N] Hs)
    by (cbn [numel fold_right]; lia).
  cbn [bind]. rewrite broadcast_same with (pre := [N]) by reflexivity.
  cbn [data length app numel fold_right].
  rewrite chunks_of_concat.
  - rewrite map_map. reflexivity.
  - rewrite length_map. lia.
  - apply Forall_map, Forall_forall. reflexivity.
Qed.

(** X7.  What [map] does to a batch that does not have two columns: the
    single column of a batch of shape [N, 1] is broadcast, each value [v]
    giving the point [(scale_x*v + offset_x, scale_y*v + offset_y)]; a batch
    of any other width raises a RuntimeError. *)
Theorem centered_linear_map_other_widths (xmin xmax ymin ymax : R)
  (x_size y_size : option R) (use_cuda : bool) (lm : CenteredLinearMap.t) :
  CenteredLinearMap.init xmin xmax ymin ymax x_size y_size use_cuda = Ok lm ->
  exists sx sy ox oy,
    value (CenteredLinearMap.m lm) = [sx; sy] /\
    value (CenteredLinearMap.b lm) = [ox; oy] /\
    (forall x N,
        wf x -> shape x = [N; 1] ->
        snd (CenteredLinearMap.map lm x)
        = Ok (Tensor [N; 2]
                (concat (map (fun v => [sx * v + ox; sy * v + oy]%R)
                           (data x))))) /\
    (forall x N D,
        shape x = [N; D] -> D <> 1 -> D <> 2 ->
        snd (CenteredLinearMap.map lm x) = Raise RuntimeError).
Proof.
  intros Hinit.
  destruct (init_two_axes _ _ _ _ _ _ _ _ Hinit) as (sx & sy & ox & oy & Hm & Hb).
  exists sx, sy, ox, oy. split; [exact Hm|]. split; [exact Hb|]. split.
  - intros x N Hwf Hs.
    exact (map_column_rows lm sx sy ox oy x N Hm Hb Hwf Hs).
  - intros x N D Hs H1 H2.
    apply (proj2 (map_shape lm x N D
                    (f_equal (@length R) Hm) (f_equal (@length R) Hb) Hs));
      assumption.
Qed.

Lemma centered_linear_map_other_widths_witness :
  exists lm,
    CenteredLinearMap.init CenteredLinearMap.xmin_default
      CenteredLinearMap.xmax_default CenteredLinearMap.ymin_default
      CenteredLinearMap.ymax_default None None false = Ok lm /\
    exists y,
      snd (CenteredLinearMap.map lm column_batch) = Ok y /\ shape y = [1; 2].
Proof.
  exists plain_linmap. split; [reflexivity|].
  destruct (centered_linear_map_other_widths _ _ _ _ None None false
              plain_linmap eq_refl)
    as (sx & sy & ox & oy & _ & _ & Hcol & _).
  eexists. split; [exact (Hcol column_batch 1 eq_refl eq_refl)|reflexivity].
Defined.

(** ** SkipConn behind a linear map *)

Lemma skipconn_forward_output (self : SkipConn.t) (x : tensor) :
  snd (SkipConn.forward self x)
  = x' <- snd (apply_linmap (SkipConn._linmap self) x) ;;
    r <- SkipConn.network self x' ;;
    Ok (fst r).
Proof.
  unfold SkipConn.forward.
  now destruct (apply_linmap (SkipConn._linmap self) x).
Qed.

Lemma apply_linmap_some (lm : CenteredLinearMap.t) (x : tensor) :
  snd (apply_linmap (Some lm) x) = snd (CenteredLinearMap.map lm x).
Proof.
  unfold apply_linmap. now destruct (CenteredLinearMap.map lm x).
Qed.

(** X8.  A SkipConn that is given a CenteredLinearMap built with the same
    [use_cuda] as the model, so that the map's buffers, the weights and the
    batch live on one device, works only with [init_size = 2]: the map turns
    every batch it accepts, of one column or of two, into a batch of two
    columns.  With [init_size = 2] and a hidden layer such a batch gives an
    output of shape [N, 1]; with any other [init_size], or a batch of another
    width, [forward] raises a RuntimeError.  (A map and a model built with
    different [use_cuda] are not covered: torch refuses to combine tensors
    of two devices.) *)
Theorem skipconn_behind_linear_map (xmin xmax ymin ymax : R)
  (x_size y_size : option R) (lm : CenteredLinearMap.t)
  (h L c N D : nat) (act : R -> R) (uc : bool) (theta : draws)
  (x : tensor) :
  CenteredLinearMap.init xmin xmax ymin ymax x_size y_size uc = Ok lm ->
  shape x = [N; D] ->
  let self := SkipConn.init h L c (Some lm) act uc theta in
  ((D = 1 \/ D = 2) /\ c = 2 /\ 1 <= L ->
   exists y, snd (SkipConn.forward self x) = Ok y /\ shape y = [N; 1]) /\
  (~ (D = 1 \/ D = 2) \/ c <> 2 ->
   snd (SkipConn.forward self x) = Raise RuntimeError).
Proof.
  intros Hinit Hs self.
  destruct (init_two_axes _ _ _ _ _ _ _ _ Hinit)
    as (sx & sy & ox & oy & Hm & Hb).
  destruct (map_shape lm x N D (f_equal (@length R) Hm)
              (f_equal (@length R) Hb) Hs) as (Hok & Hbad).
  rewrite skipconn_forward_output. unfold self at 1 3.
  cbn [SkipConn.init SkipConn._linmap]. rewrite apply_linmap_some.
  split.
  - intros (HD & -> & HL). destruct (Hok HD) as (x' & E & Hx').
    rewrite E. cbn [bind]. unfold self.
    destruct (network_ok h L 2 (Some lm) act uc theta x' N HL Hx')
      as (y & seen & En & Hy & _).
    rewrite En. cbn [bind fst]. now exists y.
  - intros H.
    destruct (Nat.eq_dec D 1) as [HD1|HD1];
      [|destruct (Nat.eq_dec D 2) as [HD2|HD2]].
    3:{ now rewrite (Hbad HD1 HD2). }
    all: destruct H as [H|Hc]; [exfalso; apply H; auto|];
      destruct (Hok (ltac:(auto))) as (x' & E & Hx');
      rewrite E; cbn [bind]; unfold self;
      now rewrite (network_wrong_width h L c (Some lm) act uc theta x' N 2 Hx'
                     (fun e => Hc (eq_sym e))).
Qed.

Lemma skipconn_behind_linear_map_witness :
  shape column_batch = [1; 1] /\
  (exists y,
      snd (SkipConn.forward
             (SkipConn.init 3 2 2 (Some plain_linmap) LeakyReLU false
                zero_draws) column_batch) = Ok y /\ shape y = [1; 1]) /\
  snd (SkipConn.forward
         (SkipConn.init 3 2 1 (Some plain_linmap) LeakyReLU false zero_draws)
         column_batch) = Raise RuntimeError.
Proof.
  split; [reflexivity|]. split.
  - apply (skipconn_behind_linear_map _ _ _ _ None None plain_linmap
             3 2 2 1 1 LeakyReLU false zero_draws column_batch eq_refl eq_refl).
    split; [now left|split; [reflexivity|lia]].
  - apply (skipconn_behind_linear_map _ _ _ _ None None plain_linmap
             3 2 1 1 1 LeakyReLU false zero_draws column_batch eq_refl eq_refl).
    right. lia.
Defined.

(** ** Fourier2D for every order *)

Lemma firstn_skipn_nth (j : nat) (r : list R) :
  j < length r -> firstn 1 (skipn j r) = [nth j r 0%R].
Proof.
  revert r; induction j as [|j IH]; intros [|a r] H; simpl in H; try lia.
  - reflexivity.
  - apply IH. lia.
Qed.

Lemma select_col_rows (x : tensor) (N D j : nat) :
  wf x -> shape x = [N; D] -> j < D ->
  select_col x j = Ok (Tensor [N] (map (fun r => nth j r 0%R) (rows x))).
Proof.
  intros Hwf Hs Hj.
  destruct (rows_length x N D Hwf Hs) as (Hr & Hlen & Hall).
  unfold select_col. rewrite Hs.
  destruct (Nat.ltb_spec j D); [|lia].
  cbn [numel fold_right]. rewrite !Nat.mul_1_r, <- Hr.
  do 2 f_equal. rewrite <- concat_singletons. f_equal.
  apply map_ext_in. intros r Hin. rewrite Forall_forall in Hall.
  apply firstn_skipn_nth. rewrite (Hall r Hin). exact Hj.
Qed.

Lemma term_presented (f g : R -> R) (n m : R) (x : tensor) (N D : nat) :
  wf x -> shape x = [N; D] -> 2 <= D ->
  exists t,
    Fourier2D.term f g n m x = Ok t /\
    presented t N 1
      (fun r => [(f (n * nth 0 r 0) * g (m * nth 1 r 0))%R]) (rows x).
Proof.
  intros Hwf Hs HD. unfold Fourier2D.term.
  rewrite (select_col_rows x N D 0 Hwf Hs), (select_col_rows x N D 1 Hwf Hs)
    by lia.
  cbn [bind]. unfold tmul, tmap. cbn [shape data].
  rewrite shape_eqb_refl. cbn [bind].
  rewrite !map_map, zip_with_map.
  eexists. split; [reflexivity|].
  split; [reflexivity|]. split.
  - cbn [unsqueeze_last data]. now rewrite concat_singletons.
  - apply Forall_forall. reflexivity.
Qed.

Lemma term_out_of_range (f g : R -> R) (n m : R) (x : tensor) (N D : nat) :
  wf x -> shape x = [N; D] -> D < 2 ->
  Fourier2D.term f g n m x = Raise IndexError.
Proof.
  intros Hwf Hs HD. unfold Fourier2D.term.
  destruct D as [|[|D]]; [| |lia].
  - unfold select_col. now rewrite Hs.
  - rewrite (select_col_rows x N 1 0 Hwf Hs) by lia. cbn [bind].
    unfold select_col. now rewrite Hs.
Qed.

Lemma sum_nat_app (l1 l2 : list nat) :
  sum_nat (l1 ++ l2) = sum_nat l1 + sum_nat l2.
Proof.
  unfold sum_nat. induction l1 as [|a l1 IH]; simpl; [reflexivity|].
  rewrite IH. lia.
Qed.

Lemma loop_m_presented (n : R) (x : tensor) (N D : nat) (ms : list R) :
  wf x -> shape x = [N; D] -> 2 <= D ->
  forall items : list (tensor * nat * (list R -> list R)),
    Forall (fun it => presented (fst (fst it)) N (snd (fst it)) (snd it)
                        (rows x)) items ->
    exists items',
      Fourier2D.loop_m n ms x (map (fun it => fst (fst it)) items)
      = Ok (map (fun it => fst (fst it)) items') /\
      Forall (fun it => presented (fst (fst it)) N (snd (fst it)) (snd it)
                          (rows x)) items' /\
      sum_nat (map (fun it => snd (fst it)) items')
      = sum_nat (map (fun it => snd (fst it)) items) + 4 * length ms /\
      forall a,
        concat (map (fun it => snd it a) items')
        = concat (map (fun it => snd it a) items)
          ++ flat_map (fun m => cross_pair n m a) ms.
Proof.
  intros Hwf Hs HD. induction ms as [|m ms IH]; intros items Hall.
  - exists items. cbn [Fourier2D.loop_m length flat_map].
    repeat split; [assumption|lia|intros a; now rewrite app_nil_r].
  - cbn [Fourier2D.loop_m].
    destruct (term_presented cos cos n m x N D Hwf Hs HD) as (t1 & E1 & P1).
    destruct (term_presented cos sin n m x N D Hwf Hs HD) as (t2 & E2 & P2).
    destruct (term_presented sin cos n m x N D Hwf Hs HD) as (t3 & E3 & P3).
    destruct (term_presented sin sin n m x N D Hwf Hs HD) as (t4 & E4 & P4).
    rewrite E1, E2, E3, E4. cbn [bind].
    set (F := fun (f g : R -> R) (r : list R) =>
                [(f (n * nth 0 r 0) * g (m * nth 1 r 0))%R]).
    destruct (IH (items ++ [(t1, 1, F cos cos); (t2, 1, F cos sin);
                            (t3, 1, F sin cos); (t4, 1, F sin sin)]))
      as (items' & E & Hall' & Hsum & Hrows).
    { apply Forall_app. split; [assumption|].
      constructor; [exact P1|]. constructor; [exact P2|].
      constructor; [exact P3|]. constructor; [exact P4|]. constructor. }
    exists items'. rewrite map_app in E. cbn [map fst snd] in E.
    split; [exact E|]. split; [exact Hall'|]. split.
    + rewrite Hsum, map_app, sum_nat_app. cbn. lia.
    + intros a. rewrite Hrows, map_app, concat_app, <- app_assoc.
      reflexivity.
Qed.

Lemma loop_n_presented (x : tensor) (N D : nat) (orders ns : list R) :
  wf x -> shape x = [N; D] -> 2 <= D ->
  forall items : list (tensor * nat * (list R -> list R)),
    Forall (fun it => presented (fst (fst it)) N (snd (fst it)) (snd it)
                        (rows x)) items ->
    exists items',
      Fourier2D.loop_n ns orders x (map (fun it => fst (fst it)) items)
      = Ok (map (fun it => fst (fst it)) items') /\
      Forall (fun it => presented (fst (fst it)) N (snd (fst it)) (snd it)
                          (rows x)) items' /\
      sum_nat (map (fun it => snd (fst it)) items')
      = sum_nat (map (fun it => snd (fst it)) items)
        + 4 * (length ns * length orders) /\
      forall a,
        concat (map (fun it => snd it a) items')
        = concat (map (fun it => snd it a) items)
          ++ flat_map (fun n => flat_map (fun m => cross_pair n m a) orders)
               ns.
Proof.
  intros Hwf Hs HD. induction ns as [|n ns IH]; intros items Hall.
  - exists items. cbn [Fourier2D.loop_n length flat_map].
    repeat split; [assumption|lia|intros a; now rewrite app_nil_r].
  - cbn [Fourier2D.loop_n].
    destruct (loop_m_presented n x N D orders Hwf Hs HD items Hall)
      as (items1 & E1 & Hall1 & Hsum1 & Hrows1).
    rewrite E1. cbn [bind].
    destruct (IH items1 Hall1) as (items' & E & Hall' & Hsum & Hrows).
    exists items'. split; [exact E|]. split; [exact Hall'|]. split.
    + rewrite Hsum, Hsum1. cbn [length]. lia.
    + intros a. rewrite Hrows, Hrows1, <- app_assoc. reflexivity.
Qed.

(** The expansion, row by row, for every list of orders and every batch of
    at least two columns. *)
Lemma fourier2d_features_rows (orders : list R) (x : tensor) (N D : nat) :
  wf x -> shape x = [N; D] -> 2 <= D ->
  exists f,
    Fourier2D.features orders x = Ok f /\
    presented f N (D + 4 * (length orders * length orders))
      (fun r => r ++ cross_terms orders r) (rows x).
Proof.
  intros Hwf Hs HD.
  destruct (presented_rows x N D Hwf Hs) as (Hx & Hlen).
  destruct (loop_n_presented x N D orders orders Hwf Hs HD
              [(x, D, fun r => r)]) as (items & E & Hall & Hsum & Hrows).
  { constructor; [exact Hx|constructor]. }
  unfold Fourier2D.features. cbn [map fst snd] in E. rewrite E. cbn [bind].
  destruct (cat_presented N (rows x) items Hlen) as (Hp & Ecat);
    [|exact Hall|].
  { intros ->. cbn in Hsum. lia. }
  cbn [map sum_nat fold_right fst snd] in Hsum. rewrite Nat.add_0_r in Hsum.
  fold (sum_nat (map (fun it : tensor * nat * (list R -> list R) =>
                        snd (fst it)) items)) in Hsum.
  rewrite Hsum in Hp, Ecat. rewrite Ecat.
  eexists. split; [reflexivity|].
  apply (presented_ext _ _ _
           (fun a => concat (map (fun it : tensor * nat * (list R -> list R) =>
                                    snd it a) items)));
    [|exact Hp].
  intros a. rewrite Hrows. cbn [map concat snd]. now rewrite app_nil_r.
Qed.

Lemma fourier2d_orders (K h L : nat) (lm : option CenteredLinearMap.t)
  (uc : bool) (theta : draws) :
  value (Fourier2D.orders (Fourier2D.init K h L lm uc theta))
  = map INR (seq 0 K).
Proof.
  unfold Fourier2D.init, arange. rewrite Nat.sub_0_r. now destruct uc.
Qed.

Lemma fourier2d_forward_no_linmap (K h L : nat) (uc : bool) (theta : draws)
  (x : tensor) :
  snd (Fourier2D.forward (Fourier2D.init K h L None uc theta) x)
  = f <- Fourier2D.features (map INR (seq 0 K)) x ;;
    r <- SkipConn.network
           (SkipConn.init h L (K * K * 4 + 2) None LeakyReLU uc theta) f ;;
    Ok (fst r).
Proof.
  rewrite fourier2d_forward_output, fourier2d_orders. reflexivity.
Qed.

(** X9.  For every [fourier_order] K the expansion fits the inner model: on
    a batch of two columns each row becomes the two coordinates followed by
    the four products of every pair of orders (n, m) in 0 .. K-1, [n]
    outermost, which makes [4*K*K + 2] columns, the width the inner model is
    built for; with a hidden layer and no linear map [forward] then returns
    an output of shape [N, 1]. *)
Theorem fourier2d_expansion_fits (K h L N : nat) (uc : bool)
  (theta : draws) (x : tensor) :
  wf x -> shape x = [N; 2] -> 1 <= L ->
  let self := Fourier2D.init K h L None uc theta in
  value (Fourier2D.orders self) = map INR (seq 0 K) /\
  Linear.in_features (SkipConn.inLayer (Fourier2D.inner_model self))
  = 4 * K * K + 2 /\
  (exists f,
      Fourier2D.features (value (Fourier2D.orders self)) x = Ok f /\
      shape f = [N; 4 * K * K + 2] /\
      rows f = map (fun r => r ++ cross_terms (map INR (seq 0 K)) r) (rows x)) /\
  exists y, snd (Fourier2D.forward self x) = Ok y /\ shape y = [N; 1].
Proof.
  intros Hwf Hs HL self.
  pose proof (fourier2d_orders K h L None uc theta) as Ho. fold self in Ho.
  destruct (rows_length x N 2 Hwf Hs) as (_ & Hlen & _).
  destruct (fourier2d_features_rows (map INR (seq 0 K)) x N 2 Hwf Hs (le_n 2))
    as (f & Ef & Hf).
  rewrite length_map, length_seq in Hf.
  replace (2 + 4 * (K * K)) with (4 * K * K + 2) in Hf by lia.
  split; [exact Ho|]. split; [unfold self; simpl; lia|]. split.
  - exists f. rewrite Ho. split; [exact Ef|].
    destruct (presented_pieces _ _ _ _ _ Hlen Hf) as (_ & Hch).
    destruct Hf as (Hsf & _). split; [exact Hsf|].
    unfold rows at 1. now rewrite Hsf.
  - unfold self. rewrite fourier2d_forward_no_linmap, Ef. cbn [bind].
    destruct (network_ok h L (K * K * 4 + 2) None LeakyReLU uc theta f N HL)
      as (y & seen & E & Hy & _).
    { destruct Hf as (Hsf & _). rewrite Hsf. do 2 f_equal. lia. }
    rewrite E. cbn [bind fst]. now exists y.
Qed.

Lemma fourier2d_expansion_fits_witness :
  wf origin /\ shape origin = [1; 2] /\ 1 <= 1 /\
  exists f,
    Fourier2D.features
      (value (Fourier2D.orders
                (Fourier2D.init 3 1 1 None false zero_draws))) origin = Ok f /\
    shape f = [1; 4 * 3 * 3 + 2].
Proof.
  split; [reflexivity|]. split; [reflexivity|]. split; [lia|].
  destruct (fourier2d_expansion_fits 3 1 1 1 false zero_draws origin
              eq_refl eq_refl (le_n 1))
    as (_ & _ & (f & Ef & Hsf & _) & _).
  exists f. split; [exact Ef|exact Hsf].
Defined.

(** X10.  [Fourier2D] on a batch that does not have two columns, for
    [fourier_order >= 1]: with fewer than two columns the first product
    indexes a column that is not there and [forward] raises an IndexError;
    with more than two the expansion is built, [D + 4*K*K] columns wide, and
    the inner model's input layer raises a RuntimeError. *)
Theorem fourier2d_other_widths (K h L N D : nat) (uc : bool)
  (theta : draws) (x : tensor) :
  wf x -> shape x = [N; D] -> 1 <= K -> D <> 2 ->
  let self := Fourier2D.init K h L None uc theta in
  (D < 2 -> snd (Fourier2D.forward self x) = Raise IndexError) /\
  (2 < D ->
   (exists f, Fourier2D.features (value (Fourier2D.orders self)) x = Ok f /\
              shape f = [N; D + 4 * K * K]) /\
   snd (Fourier2D.forward self x) = Raise RuntimeError).
Proof.
  intros Hwf Hs HK HD self.
  pose proof (fourier2d_orders K h L None uc theta) as Ho. fold self in Ho.
  split.
  - intros Hlt. unfold self. rewrite fourier2d_forward_no_linmap.
    destruct K as [|K]; [lia|].
    change (seq 0 (S K)) with (0 :: seq 1 K).
    unfold Fourier2D.features.
    cbn [map Fourier2D.loop_n Fourier2D.loop_m].
    now rewrite (term_out_of_range cos cos _ _ x N D Hwf Hs Hlt).
  - intros Hgt.
    destruct (fourier2d_features_rows (map INR (seq 0 K)) x N D Hwf Hs)
      as (f & Ef & (Hsf & _)); [lia|].
    rewrite length_map, length_seq in Hsf.
    replace (4 * (K * K)) with (4 * K * K) in Hsf by lia.
    split; [exists f; rewrite Ho; now split|].
    unfold self. rewrite fourier2d_forward_no_linmap, Ef. cbn [bind].
    rewrite (network_wrong_width h L (K * K * 4 + 2) None LeakyReLU uc theta
               f N (D + 4 * K * K) Hsf); [reflexivity|lia].
Qed.

Lemma fourier2d_other_widths_witness :
  wf column_batch /\ shape column_batch = [1; 1] /\ 1 <= 1 /\ 1 <> 2 /\
  snd (Fourier2D.forward (Fourier2D.init 1 1 1 None false zero_draws)
         column_batch) = Raise IndexError.
Proof.
  split; [reflexivity|]. split; [reflexivity|]. split; [lia|].
  split; [lia|].
  apply (fourier2d_other_widths 1 1 1 1 1 false zero_draws column_batch
           eq_refl eq_refl (le_n 1)); lia.
Defined.

(** ** Taylor: the width the inner model expects *)

(** X11.  [Taylor] sizes its inner model for [2*taylor_order + 2] inputs,
    which is the width [D*(taylor_order+1)] of the expansion exactly when
    the batch has [D = 2] columns: with a hidden layer and no linear map,
    [forward] returns an output of shape [N, 1] for such a batch, also for
    an empty one, and raises a RuntimeError for every other width. *)
Theorem taylor_accepts_width_two (Phi : R -> R) (t h L N D : nat)
  (theta : draws) (x : tensor) :
  wf x -> shape x = [N; D] -> 1 <= L ->
  let self := Taylor.init Phi t h L None theta in
  (exists f, Taylor.features t x = Ok f /\ shape f = [N; D * (t + 1)]) /\
  (D = 2 ->
   exists y, snd (Taylor.forward self x) = Ok y /\ shape y = [N; 1]) /\
  (D <> 2 -> snd (Taylor.forward self x) = Raise RuntimeError).
Proof.
  intros Hwf Hs HL self.
  pose proof (taylor_features_rows t x N D Hwf Hs) as Ef.
  assert (Hfwd : forall f,
             Taylor.features t x = Ok f ->
             snd (Taylor.forward self x)
             = r <- SkipConn.network
                      (SkipConn.init h L (t * 2 + 2) None (GELU Phi) true theta)
                      f ;;
               Ok (fst r)).
  { intros f E. unfold self. rewrite taylor_forward_output.
    cbn [Taylor.init Taylor._linmap apply_linmap snd bind Taylor.taylor_order].
    now rewrite E. }
  split; [eexists; split; [exact Ef|reflexivity]|]. split.
  - intros ->. rewrite (Hfwd _ Ef).
    destruct (network_ok h L (t * 2 + 2) None (GELU Phi) true theta
                (Tensor [N; 2 * (t + 1)]
                   (concat
                      (map (fun r =>
                              r ++ concat (map (fun n => map (fun v => v ^ n)%R r)
                                             (seq 1 t)))
                         (rows x)))) N HL)
      as (y & seen & E & Hy & _).
    { cbn [shape]. do 2 f_equal. lia. }
    rewrite E. cbn [bind fst]. now exists y.
  - intros HD. rewrite (Hfwd _ Ef).
    rewrite network_wrong_width with (N := N) (w := D * (t + 1));
      [reflexivity|reflexivity|nia].
Qed.

Lemma taylor_accepts_width_two_witness :
  wf empty_batch /\ shape empty_batch = [0; 2] /\ 1 <= 1 /\
  exists y,
    snd (Taylor.forward
           (Taylor.init (fun _ => (1 / 2)%R) 4 1 1 None zero_draws)
           empty_batch) = Ok y /\
    shape y = [0; 1].
Proof.
  split; [reflexivity|]. split; [reflexivity|]. split; [lia|].
  apply (taylor_accepts_width_two (fun _ => (1 / 2)%R) 4 1 1 0 2 zero_draws
           empty_batch eq_refl eq_refl (le_n 1)).
  reflexivity.
Defined.

(** ** What one more order costs *)

Lemma later_widths_shift (h c d : nat) (theta theta' : draws)
  (start len : nat) :
  map Linear.in_features
    (map (fun i =>
            let in_size := if 0 <? i then h * 2 + (c + d) else h + (c + d) in
            nn_Linear in_size h (theta' (S i)))
       (seq start len))
  = map (fun w => w + d)
      (map Linear.in_features
         (map (fun i =>
                 let in_size := if 0 <? i then h * 2 + c else h + c in
                 nn_Linear in_size h (theta (S i)))
            (seq start len))).
Proof.
  rewrite !map_map. apply map_ext. intros i.
  destruct (0 <? i); simpl; lia.
Qed.

(** X12.  Raising [fourier_order] by one widens the input of every layer of
    the inner model, the input layer, each hidden layer and the output
    layer, by exactly 4 columns, and changes no layer's output width. *)
Theorem fourier_order_adds_four_inputs (K h L : nat)
  (lm lm' : option CenteredLinearMap.t) (uc uc' : bool)
  (theta theta' : draws) :
  let bigger := Fourier.inner_model (Fourier.init (S K) h L lm' uc' theta') in
  let smaller := Fourier.inner_model (Fourier.init K h L lm uc theta) in
  map Linear.in_features (layers_of bigger)
  = map (fun w => w + 4) (map Linear.in_features (layers_of smaller)) /\
  map Linear.out_features (layers_of bigger)
  = map Linear.out_features (layers_of smaller).
Proof.
  intros bigger smaller. unfold bigger, smaller, layers_of.
  cbn [Fourier.init Fourier.inner_model SkipConn.init SkipConn.inLayer
         SkipConn.hidden SkipConn.outLayer].
  replace (S K * 4 + 2) with (K * 4 + 2 + 4) by lia.
  split.
  - cbn [map]. rewrite !map_app.
    rewrite (later_widths_shift h (K * 4 + 2) 4 theta theta').
    cbn [map nn_Linear Linear.in_features].
    replace (h * 2 + (K * 4 + 2 + 4)) with (h * 2 + (K * 4 + 2) + 4) by lia.
    reflexivity.
  - cbn [map]. rewrite !map_app, !map_map. reflexivity.
Qed.

(** ** Order zero, and batches without points *)




(** X14.  [Fourier] cannot be called on a batch without points: whatever
    the order, the width of the batch and the inner model, flattening the
    expansion with [view(0, -1)] raises a RuntimeError. *)
Theorem fourier_rejects_empty_batches (K h L D : nat) (uc : bool)
  (theta : draws) (x : tensor) :
  wf x -> shape x = [0; D] ->
  Fourier.features (value (Fourier.orders (Fourier.init K h L None uc theta)))
    x = Raise RuntimeError /\
  snd (Fourier.forward (Fourier.init K h L None uc theta) x)
  = Raise RuntimeError.
Proof.
  intros Hwf Hs.
  assert (E : Fourier.features (arange 1 (K + 1)) x = Raise RuntimeError).
  { unfold wf in Hwf. rewrite Hs in Hwf. cbn [numel fold_right] in Hwf.
    unfold Fourier.features.
    assert (Hs3 : shape (unsqueeze_last x) = [0; D] ++ [1])
      by (unfold unsqueeze_last; cbn [shape]; now rewrite Hs).
    rewrite (broadcast_unsqueezed _ (unsqueeze_last x) _ [0; D] Hs3)
      by (cbn [unsqueeze_last data numel fold_right]; lia).
    cbn [bind].
    rewrite (cat_last3 _ _ (unsqueeze_last x) 0 D
               (length (arange 1 (K + 1))) (length (arange 1 (K + 1))) 1);
      [|reflexivity|reflexivity|exact Hs3].
    cbn [bind]. cbn [unsqueeze_last shape]. rewrite Hs. reflexivity. }
  split.
  - now rewrite (proj1 (fourier_orders K h L None uc theta)).
  - now rewrite fourier_forward_no_linmap, E.
Qed.

Lemma fourier_rejects_empty_batches_witness :
  wf empty_batch /\ shape empty_batch = [0; 2] /\
  snd (Fourier.forward (Fourier.init 4 100 7 None false zero_draws)
         empty_batch) = Raise RuntimeError.
Proof.
  split; [reflexivity|]. split; [reflexivity|].
  exact (proj2 (fourier_rejects_empty_batches 4 100 7 2 false zero_draws
                  empty_batch eq_refl eq_refl)).
Defined.

(** ** Every model works point by point *)

Lemma presented_ext_in {A : Type} (t : tensor) (N w : nat)
  (f g : A -> list R) (l : list A) :
  (forall a, In a l -> f a = g a) ->
  presented t N w f l -> presented t N w g l.
Proof.
  intros Hfg (Hs & Hd & Hl). split; [exact Hs|]. split.
  - rewrite Hd. f_equal. apply map_ext_in. exact Hfg.
  - rewrite Forall_forall in *. intros a Ha. rewrite <- (Hfg a Ha).
    now apply Hl.
Qed.

Lemma presented_compose {A : Type} (t u : tensor) (N w w' : nat)
  (F : A -> list R) (G : list R -> list R) (l : list A) :
  length l = N ->
  presented t N w F l ->
  presented u N w' G (rows t) ->
  presented u N w' (fun a => G (F a)) l.
Proof.
  intros Hlen Ht (Hs & Hd & Hl).
  destruct (presented_wf_rows _ _ _ _ _ Hlen Ht) as (_ & Hst & Hch).
  assert (Hr : rows t = map F l) by (unfold rows; now rewrite Hst).
  rewrite Hr in Hd, Hl. split; [exact Hs|]. split.
  - now rewrite Hd, map_map.
  - now apply Forall_map in Hl.
Qed.

Lemma linmap_stage (lm : option CenteredLinearMap.t) (x : tensor) (N : nat) :
  linmap_built lm -> wf x -> shape x = [N; 2] ->
  exists x',
    snd (apply_linmap lm x) = Ok x' /\
    presented x' N 2 (linmap_row lm) (rows x).
Proof.
  intros Hb Hwf Hs.
  destruct (presented_rows x N 2 Hwf Hs) as (Hx & Hlen).
  destruct lm as [l|]; [|exists x; split; [reflexivity|exact Hx]].
  destruct Hb as (xmin & xmax & ymin & ymax & xs & ys & uc & Hinit).
  destruct (init_two_axes _ _ _ _ _ _ _ _ Hinit)
    as (sx & sy & ox & oy & Hm & Hbv).
  rewrite apply_linmap_some,
    (linmap_map_rows l sx sy ox oy x N Hm Hbv Hwf Hs).
  eexists. split; [reflexivity|].
  destruct Hx as (_ & _ & Hl).
  apply (presented_ext_in _ _ _
           (fun r => [sx * nth 0 r 0 + ox; sy * nth 1 r 0 + oy]%R)).
  - intros r Hin. rewrite Forall_forall in Hl. specialize (Hl r Hin).
    destruct r as [|a [|b [|? ?]]]; try discriminate.
    unfold linmap_row, affine_row. now rewrite Hm, Hbv.
  - split; [reflexivity|]. split; [reflexivity|].
    apply Forall_forall. reflexivity.
Qed.

Lemma harmonics_of_length (v : list R) (a : R) :
  length (harmonics_of v a) = 2 * length v + 1.
Proof.
  unfold harmonics_of. rewrite !length_app, !length_map. simpl. lia.
Qed.

(** The expansion of [Fourier] for an arbitrary list of orders. *)
Lemma fourier_features_general (v : list R) (x : tensor) (N D : nat) :
  wf x -> shape x = [N; D] ->
  (N = 0 -> Fourier.features v x = Raise RuntimeError) /\
  (1 <= N ->
   exists f, Fourier.features v x = Ok f /\
             presented f N (D * (2 * length v + 1)) (fourier_row v) (rows x)).
Proof.
  intros Hwf Hs.
  destruct (presented_rows x N D Hwf Hs) as ((_ & Hdx & Hlx) & Hlen).
  rewrite map_id in Hdx.
  unfold wf in Hwf. rewrite Hs in Hwf.
  cbn [numel fold_right] in Hwf. rewrite Nat.mul_1_r in Hwf.
  assert (Hs3 : shape (unsqueeze_last x) = [N; D] ++ [1])
    by (unfold unsqueeze_last; cbn [shape]; now rewrite Hs).
  assert (E : Fourier.features v x
              = view_rows
                  (Tensor [N; D; length v + length v + 1]
                     (concat (map (harmonics_of v) (data x)))) N).
  { unfold Fourier.features.
    rewrite (broadcast_unsqueezed _ (unsqueeze_last x) v [N; D] Hs3)
      by (cbn [unsqueeze_last data numel fold_right]; lia).
    cbn [bind]. cbn [unsqueeze_last data app].
    rewrite (cat_last3 _ _ (unsqueeze_last x) N D (length v) (length v) 1);
      [|reflexivity|reflexivity|exact Hs3].
    cbn [bind tmap data shape hd unsqueeze_last].
    rewrite Hs. cbn [app hd].
    rewrite !concat_map, !map_map.
    rewrite <- Hwf at 1 2 3 4.
    rewrite (chunks_of_concat (length (data x)) (length v)),
      (chunks_of_concat (length (data x)) (length v)), chunks_singletons.
    2,4: now rewrite length_map.
    2,3: apply Forall_map, Forall_forall; intros a _;
      now rewrite !length_map.
    change [map (fun a => map sin (map (fun k => (k * a)%R) v)) (data x);
            map (fun a => map cos (map (fun k => (k * a)%R) v)) (data x);
            map (fun a => [a]) (data x)]
      with (map (fun f : R -> list R => map f (data x))
              [fun a => map sin (map (fun k => (k * a)%R) v);
               fun a => map cos (map (fun k => (k * a)%R) v);
               fun a => [a]]).
    rewrite cat_data_map. cbn [map concat]. do 3 f_equal.
    apply map_ext. intros a. unfold harmonics_of.
    now rewrite !map_map, app_nil_r. }
  rewrite E. unfold view_rows. cbn [shape data numel fold_right]. split.
  - now intros ->.
  - intros HN. destruct (Nat.eqb_spec N 0) as [|_]; [lia|].
    replace (N * (D * ((length v + length v + 1) * 1)))
      with (D * (2 * length v + 1) * N) by lia.
    rewrite Nat.Div0.mod_mul, Nat.div_mul by lia. cbn [Nat.eqb].
    eexists. split; [reflexivity|].
    split; [reflexivity|]. cbn [data]. split.
    + rewrite Hdx at 1. unfold fourier_row. apply concat_map_concat.
    + revert Hlx. apply Forall_impl. intros r Hr. unfold fourier_row.
      rewrite (concat_length_uniform (2 * length v + 1)).
      * rewrite length_map, Hr. reflexivity.
      * apply Forall_map, Forall_forall. intros a _.
        apply harmonics_of_length.
Qed.

Lemma taylor_features_presented (t : nat) (x : tensor) (N D : nat) :
  wf x -> shape x = [N; D] ->
  exists f, Taylor.features t x = Ok f /\
            presented f N (D * (t + 1)) (taylor_row t) (rows x).
Proof.
  intros Hwf Hs. rewrite (taylor_features_rows t x N D Hwf Hs).
  destruct (rows_length x N D Hwf Hs) as (_ & _ & Hall).
  eexists. split; [reflexivity|]. split; [reflexivity|].
  split; [reflexivity|].
  revert Hall. apply Forall_impl. intros r Hr. unfold taylor_row.
  rewrite length_app, powers_length, Hr. lia.
Qed.

Lemma network_stage {A : Type} (s : SkipConn.t) (e y : tensor) (N w : nat)
  (F : A -> list R) (l : list A) (seen : list SkipConn.received) :
  length l = N -> presented e N w F l ->
  SkipConn.network s e = Ok (y, seen) ->
  presented y N (Linear.out_features (SkipConn.outLayer s))
    (fun a => point_forward s (F a)) l.
Proof.
  intros Hlen He Hnet.
  destruct (presented_wf_rows _ _ _ _ _ Hlen He) as (Hwf & Hs & _).
  exact (presented_compose e y N w _ F _ l Hlen He
           (network_rows s e y N w seen Hwf Hs Hnet)).
Qed.

Lemma inner_stage {A : Type} (h L c : nat) (act : R -> R) (uc : bool)
  (theta : draws) (e y : tensor) (N w : nat) (F : A -> list R)
  (l : list A) :
  length l = N -> presented e N w F l ->
  snd (SkipConn.forward (SkipConn.init h L c None act uc theta) e) = Ok y ->
  presented y N 1
    (fun a => point_forward (SkipConn.init h L c None act uc theta) (F a)) l.
Proof.
  intros Hlen He Hy. rewrite skipconn_forward_output in Hy.
  cbn [SkipConn.init SkipConn._linmap apply_linmap snd bind] in Hy.
  destruct (SkipConn.network _ e) as [[y' seen]|] eqn:En; cbn [bind fst] in Hy;
    [|discriminate].
  injection Hy as ->.
  exact (network_stage _ e y N w F l seen Hlen He En).
Qed.

(** X15.  Every model works point by point.  For a model made by its
    constructor, around a CenteredLinearMap made by its constructor or
    around none, and a batch of [N] points with two coordinates: whenever
    [forward] returns an output it has shape [N, 1] and is well-formed, and
    its row number [i] is the linear map, the expansion and the network
    applied to row number [i] of the batch alone. *)
Theorem forward_pointwise (self : model) (x y : tensor) (N : nat) :
  built self -> wf x -> shape x = [N; 2] ->
  snd (forward self x) = Ok y ->
  shape y = [N; 1] /\ wf y /\ rows y = map (model_point self) (rows x).
Proof.
  intros Hb Hwf Hs Hy.
  destruct (rows_length x N 2 Hwf Hs) as (_ & Hlen & _).
  assert (Hp : presented y N 1 (model_point self) (rows x)).
  { destruct Hb as [h L c lm act uc theta Hlm|K h L lm uc theta Hlm
                   |K h L lm uc theta Hlm|Phi t h L lm theta Hlm];
      destruct (linmap_stage lm x N Hlm Hwf Hs) as (x' & Ex & Hx');
      destruct (presented_wf_rows _ _ _ _ _ Hlen Hx') as (Hwf' & Hs' & _);
      cbn [forward] in Hy.
    - assert (Hy' : snd (SkipConn.forward
                           (SkipConn.init h L c lm act uc theta) x) = Ok y)
        by (now destruct (SkipConn.forward _ x)).
      rewrite skipconn_forward_output in Hy'.
      cbn [SkipConn.init SkipConn._linmap] in Hy'. rewrite Ex in Hy'.
      cbn [bind] in Hy'.
      destruct (SkipConn.network _ x') as [[y' seen]|] eqn:En;
        cbn [bind fst] in Hy'; [|discriminate].
      injection Hy' as ->.
      exact (network_stage _ x' y N 2 _ _ seen Hlen Hx' En).
    - assert (Hy' : snd (Fourier.forward (Fourier.init K h L lm uc theta) x)
                    = Ok y) by (now destruct (Fourier.forward _ x)).
      rewrite fourier_forward_output in Hy'.
      cbn [Fourier.init Fourier._linmap Fourier.inner_model] in Hy'.
      rewrite Ex in Hy'. cbn [bind] in Hy'.
      destruct (fourier_features_general
                  (value (Fourier.orders (Fourier.init K h L lm uc theta)))
                  x' N 2 Hwf' Hs') as (Hzero & Hpos).
      cbn [Fourier.init] in Hzero, Hpos.
      destruct (Nat.eq_dec N 0) as [HN|HN].
      + rewrite (Hzero HN) in Hy'. discriminate.
      + destruct Hpos as (f & Ef & Hf); [lia|].
        rewrite Ef in Hy'. cbn [bind] in Hy'.
        pose proof (presented_compose x' f N 2 _ _ _ _ Hlen Hx' Hf) as Hf'.
        exact (inner_stage _ _ _ _ _ _ f y N _ _ _ Hlen Hf' Hy').
    - assert (Hy' : snd (Fourier2D.forward
                           (Fourier2D.init K h L lm uc theta) x) = Ok y)
        by (now destruct (Fourier2D.forward _ x)).
      rewrite fourier2d_forward_output in Hy'.
      cbn [Fourier2D.init Fourier2D._linmap Fourier2D.inner_model] in Hy'.
      rewrite Ex in Hy'. cbn [bind] in Hy'.
      destruct (fourier2d_features_rows
                  (value (Fourier2D.orders (Fourier2D.init K h L lm uc theta)))
                  x' N 2 Hwf' Hs' (le_n 2)) as (f & Ef & Hf).
      cbn [Fourier2D.init] in Ef, Hf.
      rewrite Ef in Hy'. cbn [bind] in Hy'.
      pose proof (presented_compose x' f N 2 _ _ _ _ Hlen Hx' Hf) as Hf'.
      exact (inner_stage _ _ _ _ _ _ f y N _ _ _ Hlen Hf' Hy').
    - assert (Hy' : snd (Taylor.forward (Taylor.init Phi t h L lm theta) x)
                    = Ok y) by (now destruct (Taylor.forward _ x)).
      rewrite taylor_forward_output in Hy'.
      cbn [Taylor.init Taylor._linmap Taylor.inner_model
             Taylor.taylor_order] in Hy'.
      rewrite Ex in Hy'. cbn [bind] in Hy'.
      destruct (taylor_features_presented t x' N 2 Hwf' Hs')
        as (f & Ef & Hf).
      rewrite Ef in Hy'. cbn [bind] in Hy'.
      pose proof (presented_compose x' f N 2 _ _ _ _ Hlen Hx' Hf) as Hf'.
      exact (inner_stage _ _ _ _ _ _ f y N _ _ _ Hlen Hf' Hy'). }
  destruct (presented_wf_rows _ _ _ _ _ Hlen Hp) as (Hwy & Hsy & Hch).
  split; [exact Hsy|]. split; [exact Hwy|].
  unfold rows at 1. now rewrite Hsy.
Qed.

Lemma forward_pointwise_witness :
  built (ASkipConn (SkipConn.init 1 1 2 (Some plain_linmap) LeakyReLU false
                      zero_draws)) /\
  wf origin /\ shape origin = [1; 2] /\
  exists y,
    snd (forward
           (ASkipConn (SkipConn.init 1 1 2 (Some plain_linmap) LeakyReLU false
                         zero_draws))
           origin) = Ok y /\
    shape y = [1; 1] /\ wf y /\
    rows y
    = map (model_point
             (ASkipConn
                (SkipConn.init 1 1 2 (Some plain_linmap) LeakyReLU false
                   zero_draws)))
        (rows origin).
Proof.
  assert (Hb : built (ASkipConn (SkipConn.init 1 1 2 (Some plain_linmap)
                                   LeakyReLU false zero_draws))).
  { constructor. cbn [linmap_built].
    exists CenteredLinearMap.xmin_default, CenteredLinearMap.xmax_default,
      CenteredLinearMap.ymin_default, CenteredLinearMap.ymax_default,
      None, None, false. reflexivity. }
  split; [exact Hb|]. split; [reflexivity|]. split; [reflexivity|].
  eexists. split; [reflexivity|].
  apply (forward_pointwise _ origin _ 1 Hb eq_refl eq_refl). reflexivity.
Defined.

(** ** The columns of Fourier2D that carry nothing *)

(** X16.  Order 0 makes part of the expansion of [Fourier2D] constant: on
    every batch of two columns the product [cos*cos] for the pair (0, 0) is
    the column of ones, and every product that takes the sine of order 0,
    in the first coordinate or in the second, is the column of zeros, for
    whatever other factor and order it is paired with. *)
Theorem fourier2d_constant_columns (x : tensor) (N : nat) (g : R -> R)
  (k : R) :
  wf x -> shape x = [N; 2] ->
  Fourier2D.term cos cos 0 0 x = Ok (Tensor [N; 1] (repeat 1%R N)) /\
  Fourier2D.term sin g 0 k x = Ok (Tensor [N; 1] (repeat 0%R N)) /\
  Fourier2D.term g sin k 0 x = Ok (Tensor [N; 1] (repeat 0%R N)).
Proof.
  intros Hwf Hs.
  destruct (rows_length x N 2 Hwf Hs) as (_ & Hlen & _).
  rewrite !(term_rows _ _ _ _ x N Hwf Hs).
  repeat split; do 2 f_equal; rewrite <- Hlen, <- map_constant;
    apply map_ext; intros r; rewrite ?Rmult_0_l, ?cos_0, ?sin_0; lra.
Qed.

Lemma fourier2d_constant_columns_witness :
  wf origin /\ shape origin = [1; 2] /\
  Fourier2D.term sin cos 0 3 origin = Ok (Tensor [1; 1] (repeat 0%R 1)).
Proof.
  split; [reflexivity|]. split; [reflexivity|].
  exact (proj1 (proj2 (fourier2d_constant_columns origin 1 cos 3
                         eq_refl eq_refl))).
Defined.

(** ** The wrappers behind a linear map *)

Lemma map_wf (lm : CenteredLinearMap.t) (sx sy ox oy : R) (x : tensor)
  (N D : nat) :
  value (CenteredLinearMap.m lm) = [sx; sy] ->
  value (CenteredLinearMap.b lm) = [ox; oy] ->
  wf x -> shape x = [N; D] -> D = 1 \/ D = 2 ->
  exists x',
    snd (CenteredLinearMap.map lm x) = Ok x' /\ wf x' /\ shape x' = [N; 2].
Proof.
  intros Hm Hb Hwf Hs [-> | ->].
  - rewrite (map_column_rows lm sx sy ox oy x N Hm Hb Hwf Hs).
    eexists. split; [reflexivity|]. split; [|reflexivity].
    unfold wf in *. rewrite Hs in Hwf. cbn [shape data numel fold_right] in *.
    rewrite (concat_length_uniform 2), length_map
      by (apply Forall_map, Forall_forall; reflexivity).
    lia.
  - rewrite (linmap_map_rows lm sx sy ox oy x N Hm Hb Hwf Hs).
    destruct (rows_length x N 2 Hwf Hs) as (_ & Hlen & _).
    eexists. split; [reflexivity|]. split; [|reflexivity].
    unfold wf. cbn [shape data numel fold_right].
    rewrite (concat_length_uniform 2), length_map
      by (apply Forall_map, Forall_forall; reflexivity).
    lia.
Qed.

(** X17.  Behind a CenteredLinearMap built with the same [use_cuda] as the
    model, so that the map's buffers, the orders, the weights and the batch
    live on one device, the wrappers take batches of one column as well as
    of two, and nothing else: the map broadcasts a single column to two, the
    expansion of two columns has the width the inner model is built for, and
    with a hidden layer [forward] returns an output of shape [N, 1]
    ([Fourier] needing at least one point, and [Taylor], whose inner model
    is always built with [use_cuda=True], a map with [use_cuda=True]); a
    batch of any other width raises a RuntimeError.  (A map and a model
    built with different [use_cuda] are not covered: torch refuses to
    combine tensors of two devices.) *)
Theorem wrappers_behind_linear_map (xmin xmax ymin ymax : R)
  (x_size y_size : option R) (lm : CenteredLinearMap.t)
  (Phi : R -> R) (K h L N D : nat) (uc : bool) (theta : draws)
  (x : tensor) :
  CenteredLinearMap.init xmin xmax ymin ymax x_size y_size uc = Ok lm ->
  wf x -> shape x = [N; D] -> 1 <= L ->
  let f1 := Fourier.init K h L (Some lm) uc theta in
  let f2 := Fourier2D.init K h L (Some lm) uc theta in
  let t := Taylor.init Phi K h L (Some lm) theta in
  (D = 1 \/ D = 2 ->
   (1 <= N ->
    exists y, snd (Fourier.forward f1 x) = Ok y /\ shape y = [N; 1]) /\
   (exists y, snd (Fourier2D.forward f2 x) = Ok y /\ shape y = [N; 1]) /\
   (uc = true ->
    exists y, snd (Taylor.forward t x) = Ok y /\ shape y = [N; 1])) /\
  (D <> 1 -> D <> 2 ->
   snd (Fourier.forward f1 x) = Raise RuntimeError /\
   snd (Fourier2D.forward f2 x) = Raise RuntimeError /\
   snd (Taylor.forward t x) = Raise RuntimeError).
Proof.
  intros Hinit Hwf Hs HL f1 f2 t.
  destruct (init_two_axes _ _ _ _ _ _ _ _ Hinit)
    as (sx & sy & ox & oy & Hm & Hb).
  assert (E1 : forall r,
             snd (CenteredLinearMap.map lm x) = r ->
             snd (Fourier.forward f1 x)
             = x' <- r ;;
               e <- Fourier.features (arange 1 (K + 1)) x' ;;
               r <- SkipConn.network
                      (SkipConn.init h L (K * 4 + 2) None LeakyReLU uc theta)
                      e ;;
               Ok (fst r)).
  { intros r <-. unfold f1. rewrite fourier_forward_output.
    rewrite (proj1 (fourier_orders K h L (Some lm) uc theta)).
    cbn [Fourier.init Fourier._linmap Fourier.inner_model].
    now rewrite apply_linmap_some. }
  assert (E2 : forall r,
             snd (CenteredLinearMap.map lm x) = r ->
             snd (Fourier2D.forward f2 x)
             = x' <- r ;;
               e <- Fourier2D.features (map INR (seq 0 K)) x' ;;
               r <- SkipConn.network
                      (SkipConn.init h L (K * K * 4 + 2) None LeakyReLU uc
                         theta) e ;;
               Ok (fst r)).
  { intros r <-. unfold f2. rewrite fourier2d_forward_output, fourier2d_orders.
    cbn [Fourier2D.init Fourier2D._linmap Fourier2D.inner_model].
    now rewrite apply_linmap_some. }
  assert (E3 : forall r,
             snd (CenteredLinearMap.map lm x) = r ->
             snd (Taylor.forward t x)
             = x' <- r ;;
               e <- Taylor.features K x' ;;
               r <- SkipConn.network
                      (SkipConn.init h L (K * 2 + 2) None (GELU Phi) true theta)
                      e ;;
               Ok (fst r)).
  { intros r <-. unfold t. rewrite taylor_forward_output.
    cbn [Taylor.init Taylor._linmap Taylor.inner_model Taylor.taylor_order].
    now rewrite apply_linmap_some. }
  split.
  - intros HD.
    destruct (map_wf lm sx sy ox oy x N D Hm Hb Hwf Hs HD)
      as (x' & Ex & Hwf' & Hs').
    rewrite (E1 _ Ex), (E2 _ Ex), (E3 _ Ex). cbn [bind].
    destruct (rows_length x' N 2 Hwf' Hs') as (_ & Hlen & _).
    split; [|split].
    + intros HN.
      destruct (proj2 (fourier_features_general (arange 1 (K + 1)) x' N 2
                         Hwf' Hs') HN) as (e & Ee & He).
      destruct (presented_wf_rows _ _ _ _ _ Hlen He) as (_ & Hse & _).
      rewrite Ee. cbn [bind].
      destruct (network_ok h L (K * 4 + 2) None LeakyReLU uc theta e N HL)
        as (y & seen & En & Hy & _).
      { rewrite Hse. unfold arange.
        rewrite length_map, length_seq, Nat.add_sub. do 2 f_equal. lia. }
      rewrite En. cbn [bind fst]. now exists y.
    + destruct (fourier2d_features_rows (map INR (seq 0 K)) x' N 2 Hwf' Hs'
                  (le_n 2)) as (e & Ee & He).
      destruct (presented_wf_rows _ _ _ _ _ Hlen He) as (_ & Hse & _).
      rewrite Ee. cbn [bind].
      destruct (network_ok h L (K * K * 4 + 2) None LeakyReLU uc theta e N HL)
        as (y & seen & En & Hy & _).
      { rewrite Hse, length_map, length_seq. do 2 f_equal. lia. }
      rewrite En. cbn [bind fst]. now exists y.
    + intros _.
      destruct (taylor_features_presented K x' N 2 Hwf' Hs') as (e & Ee & He).
      destruct (presented_wf_rows _ _ _ _ _ Hlen He) as (_ & Hse & _).
      rewrite Ee. cbn [bind].
      destruct (network_ok h L (K * 2 + 2) None (GELU Phi) true theta e N HL)
        as (y & seen & En & Hy & _).
      { rewrite Hse. do 2 f_equal. lia. }
      rewrite En. cbn [bind fst]. now exists y.
  - intros H1 H2.
    pose proof (proj2 (map_shape lm x N D (f_equal (@length R) Hm)
                         (f_equal (@length R) Hb) Hs) H1 H2) as Ex.
    rewrite (E1 _ Ex), (E2 _ Ex), (E3 _ Ex). now repeat split.
Qed.

Lemma wrappers_behind_linear_map_witness :
  wf column_batch /\ shape column_batch = [1; 1] /\ 1 <= 1 /\
  (exists y,
      snd (Fourier.forward
             (Fourier.init 4 3 1 (Some plain_linmap) false zero_draws)
             column_batch) = Ok y /\
      shape y = [1; 1]) /\
  (exists y,
      snd (Taylor.forward
             (Taylor.init (fun _ => (1 / 2)%R) 4 3 1 (Some cuda_linmap)
                zero_draws)
             column_batch) = Ok y /\
      shape y = [1; 1]).
Proof.
  split; [reflexivity|]. split; [reflexivity|]. split; [lia|]. split.
  - destruct (wrappers_behind_linear_map _ _ _ _ None None plain_linmap
                (fun _ => (1 / 2)%R) 4 3 1 1 1 false zero_draws column_batch
                eq_refl eq_refl eq_refl (le_n 1)) as (Hok & _).
    destruct (Hok (or_introl eq_refl)) as (Hf & _).
    exact (Hf (le_n 1)).
  - destruct (wrappers_behind_linear_map _ _ _ _ None None cuda_linmap
                (fun _ => (1 / 2)%R) 4 3 1 1 1 true zero_draws column_batch
                eq_refl eq_refl eq_refl (le_n 1)) as (Hok & _).
    destruct (Hok (or_introl eq_refl)) as (_ & _ & Ht).
    exact (Ht eq_refl).
Defined.

(** ** The range of the outputs *)







(** ** The bounds are reached in float32 *)






